(** * ccmpp.h: cohort-component population projection

    Shallow embedding of [src/ccmpp.h] (markalava/leapfrog).

    The C++ code is generic over a scalar type [Type] (doubles or
    automatic-differentiation numbers).  We instantiate it at the canonical
    rationals [Qc]: exact arithmetic with Leibniz equality and a [field]
    instance.  Eigen column vectors and arrays are lists of scalars; a dense
    Eigen matrix is the list of its columns (column [j] is [nth j M []]).
    A division by zero is the one operation of the kernel that has no
    meaning in exact arithmetic: it is the error branch of the [option]
    monad below.  Eigen's sparse matrix is the list of the triplets
    inserted into it, in insertion order. *)

From Stdlib Require Import List Arith Lia QArith Qcanon.
Import ListNotations.

Open Scope Qc_scope.

(** ** Scalars, vectors and tables *)

Definition half : Qc := Q2Qc (1 # 2).

Definition vec := list Qc.
Definition table := list vec.

(** [v[i]] / [v(i)]: reading an entry (in range for well-shaped inputs). *)
Definition at_ (v : vec) (i : nat) : Qc := nth i v 0.

(** [M.col(j)] *)
Definition col (M : table) (j : nat) : vec := nth j M [].

(** Writing entry [i] of a list: nothing happens out of range. *)
Fixpoint upd {A} (l : list A) (i : nat) (x : A) : list A :=
  match l, i with
  | [], _ => []
  | _ :: l', O => x :: l'
  | y :: l', S i' => y :: upd l' i' x
  end.

(** Coefficient-wise binary operation of two Eigen arrays. *)
Fixpoint zipw (f : Qc -> Qc -> Qc) (a b : vec) : vec :=
  match a, b with
  | x :: a', y :: b' => f x y :: zipw f a' b'
  | _, _ => []
  end.

Definition vadd := zipw Qcplus.
Definition vmul := zipw Qcmult.
Definition vscale (c : Qc) (v : vec) : vec := map (Qcmult c) v.
Definition vsum (v : vec) : Qc := fold_right Qcplus 0 v.

(** [v.segment(start, len)] and [v.block(start, 0, len, 1)] *)
Definition segment (v : vec) (start len : nat) : vec :=
  firstn len (skipn start v).

(** [v.segment(start, length xs) = xs] *)
Definition assign_segment (v : vec) (start : nat) (xs : vec) : vec :=
  firstn start v ++ xs ++ skipn (start + length xs) v.

(** [v.block(start, 0, length xs, 1) += xs] *)
Definition add_block (v : vec) (start : nat) (xs : vec) : vec :=
  assign_segment v start (vadd (segment v start (length xs)) xs).

(** ** Error monad: the only failing operation is division by zero *)

Definition bind {A B} (m : option A) (k : A -> option B) : option B :=
  match m with Some a => k a | None => None end.

Notation "x <- m ;; k" := (bind m (fun x => k))
  (at level 61, m at next level, right associativity).

Definition divM (x y : Qc) : option Qc :=
  if Qc_eq_dec y 0 then None else Some (x / y).

(** ** Sparse matrices ([Eigen::SparseMatrix]) *)

Record spmat := mkSp {
  sp_rows : nat;
  sp_cols : nat;
  sp_entries : list (nat * nat * Qc)   (* [insert(i, j) = v], in order *)
}.

(** The value of entry [(i, j)]: the sum of the values inserted there, which
    is how the entry acts in a sparse product. *)
Definition entry_sum (es : list (nat * nat * Qc)) (i j : nat) : Qc :=
  fold_right (fun '(r, c, v) acc =>
                if andb (Nat.eqb r i) (Nat.eqb c j) then v + acc else acc)
             0 es.

Definition coeff (M : spmat) (i j : nat) : Qc := entry_sum (sp_entries M) i j.

(** The number of non-zero entries of column [j]. *)
Definition col_nnz (M : spmat) (j : nat) : nat :=
  length (filter (fun i => if Qc_eq_dec (coeff M i j) 0 then false else true)
                 (seq 0 (sp_rows M))).

(** [M * v] for a dense column vector [v]. *)
Definition spmv (M : spmat) (v : vec) : vec :=
  map (fun i =>
         fold_right (fun '(r, c, x) acc =>
                       if Nat.eqb r i then x * at_ v c + acc else acc)
                    0 (sp_entries M))
      (seq 0 (sp_rows M)).

(** ** [make_leslie_matrix] (lines 8-40) *)

Definition make_leslie_matrix (sx fx : vec) (srb age_span : Qc) (fx_idx : nat)
  : option spmat :=
  fert_k <- divM (at_ sx 0 * half * age_span) (1 + srb) ;;
  let fxd := length fx in
  let fert_leslie := repeat 0 (S fxd) in
  let fert_leslie := add_block fert_leslie 0 (vmul fx (segment sx fx_idx fxd)) in
  let fert_leslie := add_block fert_leslie 1 fx in
  let fert_leslie := map (fun x => x * fert_k) fert_leslie in
  let dim := (length sx - 1)%nat in
  let top_row :=
    map (fun i => (0%nat, (fx_idx + i - 1)%nat, at_ fert_leslie i)) (seq 0 (S fxd)) in
  let sub_diag := map (fun i => (i, (i - 1)%nat, at_ sx i)) (seq 1 (dim - 1)) in
  let open_age := [((dim - 1)%nat, (dim - 1)%nat, at_ sx dim)] in
  Some (mkSp dim dim (top_row ++ sub_diag ++ open_age)).

(** ** [ccmpp_leslie] (lines 42-64): the matrix-form projection *)

(** The loop over [step]; [population] holds the columns [0..step]. *)
Fixpoint leslie_steps (sx fx gx : table) (srb : vec) (age_span : Qc)
    (fx_idx : nat) (step fuel : nat) (population : table) : option table :=
  match fuel with
  | O => Some population
  | S fuel' =>
      let migrants := vmul (col population step) (col gx step) in
      leslie <- make_leslie_matrix (col sx step) (col fx step) (at_ srb step)
                                   age_span fx_idx ;;
      let next := vadd (spmv leslie (vadd (col population step)
                                          (vscale half migrants)))
                       (vscale half migrants) in
      leslie_steps sx fx gx srb age_span fx_idx (S step) fuel'
                   (population ++ [next])
  end.

Definition ccmpp_leslie (basepop : vec) (sx fx gx : table) (srb : vec)
    (age_span : Qc) (fx_idx : nat) : option table :=
  let nsteps := length sx in
  leslie_steps sx fx gx srb age_span fx_idx 0 nsteps [basepop].

(** ** [PopulationProjection] (lines 66-122) *)

Record PopulationProjection := mkPP {
  n_ages : nat;
  n_steps : nat;
  n_fx : nat;
  fx_idx : nat;
  age_span : Qc;
  sx : table;
  fx : table;
  gx : table;
  srb : vec;
  population : table;
  deaths : table;
  births : table;
  infants : vec;
  migrations : table
}.

(** Eigen leaves a freshly sized matrix uninitialised; the model fills it
    with zeros.  No step reads a column before writing it, except column 0
    of [population], which the constructor sets. *)
Definition zeros (rows cols : nat) : table := repeat (repeat 0 rows) cols.

Definition set_col (M : table) (j : nat) (c : vec) : table := upd M j c.

Definition make_projection (n_ages n_steps n_fx fx_idx : nat) (age_span : Qc)
    (basepop : vec) (sx fx gx : table) (srb : vec) : PopulationProjection :=
  {| n_ages := n_ages; n_steps := n_steps; n_fx := n_fx; fx_idx := fx_idx;
     age_span := age_span; sx := sx; fx := fx; gx := gx; srb := srb;
     population := set_col (zeros n_ages (S n_steps)) 0 basepop;
     deaths := zeros (S n_ages) n_steps;
     births := zeros n_fx n_steps;
     infants := repeat 0 n_steps;
     migrations := zeros n_ages n_steps |}.

(** The aging loop of lines 149-151:
    [for (age = n_ages-1; age > 0; age--) population_t(age) = population_t(age-1) - deaths_t(age);]
    [aging_loop age] runs the iterations [age, age-1, ..., 1]. *)
Fixpoint aging_loop (age : nat) (population_t deaths_t : vec) : vec :=
  match age with
  | O => population_t
  | S a =>
      aging_loop a (upd population_t (S a)
                        (at_ population_t a - at_ deaths_t (S a))) deaths_t
  end.

(** ** [PopulationProjection::step_projection] (lines 124-160)

    Each [Map] of the source is a view on one column: it starts with that
    column's contents and is written back into it. *)
Definition step_projection (st : PopulationProjection) (step : nat)
  : option PopulationProjection :=
  let n := n_ages st in
  let sx_t := firstn (S n) (col (sx st) step) in
  let fx_t := col (fx st) step in
  let gx_t := firstn n (col (gx st) step) in
  let deaths_t := col (deaths st) step in
  (* population_t = population.col(step); *)
  let population_t := col (population st) step in
  let migrations_t := vmul population_t gx_t in
  let population_t := vadd population_t (vscale half migrations_t) in
  let deaths_t :=
    assign_segment deaths_t 1
      (vmul population_t (map (fun s => 1 - s) (segment sx_t 1 n))) in
  let births_t :=
    vmul (vscale (half * age_span st) fx_t)
         (segment population_t (fx_idx st) (n_fx st)) in
  let open_age_survivors :=
    at_ population_t (n - 1) - at_ deaths_t n in
  let population_t := aging_loop (n - 1) population_t deaths_t in
  let population_t :=
    upd population_t (n - 1) (at_ population_t (n - 1) + open_age_survivors) in
  let births_t :=
    vadd births_t (vmul (vscale (half * age_span st) fx_t)
                        (segment population_t (fx_idx st) (n_fx st))) in
  infants_t <- divM (vsum births_t) (1 + at_ (srb st) step) ;;
  let deaths_t := upd deaths_t 0 (infants_t * (1 - at_ sx_t 0)) in
  let population_t := upd population_t 0 (infants_t - at_ deaths_t 0) in
  let population_t := vadd population_t (vscale half migrations_t) in
  Some {| n_ages := n_ages st; n_steps := n_steps st; n_fx := n_fx st;
          fx_idx := fx_idx st; age_span := age_span st;
          sx := sx st; fx := fx st; gx := gx st; srb := srb st;
          population := set_col (population st) (S step) population_t;
          deaths := set_col (deaths st) step deaths_t;
          births := set_col (births st) step births_t;
          infants := upd (infants st) step infants_t;
          migrations := set_col (migrations st) step migrations_t |}.

(** ** [ccmpp] (lines 162-184) *)

(** [for (step = first; ...; step++) proj.step_projection(step);] *)
Fixpoint run_steps (step fuel : nat) (proj : PopulationProjection)
  : option PopulationProjection :=
  match fuel with
  | O => Some proj
  | S fuel' => proj' <- step_projection proj step ;; run_steps (S step) fuel' proj'
  end.

(** [fx.rows()]: the length of a column (all columns have it). *)
Definition rows (M : table) : nat := length (col M 0).

Definition ccmpp (basepop : vec) (sx fx gx : table) (srb : vec)
    (age_span : Qc) (fx_idx : nat) : option PopulationProjection :=
  let n_steps := length sx in
  let n_ages := length basepop in
  let n_fx := rows fx in
  run_steps 0 n_steps
    (make_projection n_ages n_steps n_fx fx_idx age_span basepop sx fx gx srb).

(** Concrete values. *)
Definition qc (z : Z) : Qc := Q2Qc (inject_Z z).

(** A small concrete projection: three age groups of 100, one fertile
    age group (index 1) with rate 1, no migration, [srb = 0], one step. *)
Definition ex_basepop : vec := [qc 100; qc 100; qc 100].
Definition ex_sx : table := [[half; half; 1; half]].
Definition ex_fx : table := [[1]].
Definition ex_gx : table := [[0; 0; 0]].
Definition ex_srb : vec := [0].
Definition ex_projection : PopulationProjection :=
  make_projection 3 1 1 1 1 ex_basepop ex_sx ex_fx ex_gx ex_srb.

(** Finite sums [sumf n f = f 0 + ... + f (n-1)], used to state and prove
    the accounting identities. *)
Fixpoint sumf (n : nat) (f : nat -> Qc) : Qc :=
  match n with
  | O => 0
  | S m => sumf m f + f m
  end.

(** Names for the intermediate values of [step_projection] (the states
    of its [Map]s), used in the proofs; [step_projection_unfold] below
    shows that the step is built from them. *)
Definition sx_at (st : PopulationProjection) (k : nat) : vec :=
  firstn (S (n_ages st)) (col (sx st) k).
Definition gx_at (st : PopulationProjection) (k : nat) : vec :=
  firstn (n_ages st) (col (gx st) k).
Definition mig_at st k : vec := vmul (col (population st) k) (gx_at st k).
Definition work_at st k : vec :=
  vadd (col (population st) k) (vscale half (mig_at st k)).
Definition deaths1_at st k : vec :=
  assign_segment (col (deaths st) k) 1
    (vmul (work_at st k) (map (fun s => 1 - s) (segment (sx_at st k) 1 (n_ages st)))).
Definition aged_at st k : vec :=
  let n := n_ages st in
  let p := aging_loop (n - 1) (work_at st k) (deaths1_at st k) in
  upd p (n - 1) (at_ p (n - 1) + (at_ (work_at st k) (n - 1) - at_ (deaths1_at st k) n)).
Definition births_at st k : vec :=
  vadd (vmul (vscale (half * age_span st) (col (fx st) k))
             (segment (work_at st k) (fx_idx st) (n_fx st)))
       (vmul (vscale (half * age_span st) (col (fx st) k))
             (segment (aged_at st k) (fx_idx st) (n_fx st))).
Definition deaths2_at st k (inf : Qc) : vec :=
  upd (deaths1_at st k) 0 (inf * (1 - at_ (sx_at st k) 0)).
Definition pop_next_at st k (inf : Qc) : vec :=
  vadd (upd (aged_at st k) 0 (inf - at_ (deaths2_at st k inf) 0))
       (vscale half (mig_at st k)).

(** What the step writes, given the infant count. *)
Definition store_step st k (inf : Qc) : PopulationProjection :=
  {| n_ages := n_ages st; n_steps := n_steps st; n_fx := n_fx st;
     fx_idx := fx_idx st; age_span := age_span st;
     sx := sx st; fx := fx st; gx := gx st; srb := srb st;
     population := set_col (population st) (S k) (pop_next_at st k inf);
     deaths := set_col (deaths st) k (deaths2_at st k inf);
     births := set_col (births st) k (births_at st k);
     infants := upd (infants st) k inf;
     migrations := set_col (migrations st) k (mig_at st k) |}.

(** The columns a step [k] writes. *)
Definition outputs_at (st : PopulationProjection) (k : nat) :=
  (col (population st) (S k), col (deaths st) k, col (births st) k,
   at_ (infants st) k, col (migrations st) k).

(** The shapes [step_projection st k] relies on (Eigen asserts them in
    debug builds): [n_ages >= 1], the columns read have their declared
    lengths and the columns written exist. *)
Definition step_wf (st : PopulationProjection) (k : nat) : Prop :=
  let n := n_ages st in
  (1 <= n)%nat /\
  length (col (population st) k) = n /\
  (S n <= length (col (sx st) k))%nat /\
  (n <= length (col (gx st) k))%nat /\
  length (col (fx st) k) = n_fx st /\
  (fx_idx st + n_fx st <= n)%nat /\
  length (col (deaths st) k) = S n /\
  (S k < length (population st))%nat /\
  (k < length (deaths st))%nat /\
  (k < length (births st))%nat /\
  (k < length (infants st))%nat /\
  (k < length (migrations st))%nat.

(** The shapes of a whole container, as built by the constructor from
    consistent inputs. *)
Definition proj_wf (st : PopulationProjection) : Prop :=
  let n := n_ages st in
  (1 <= n)%nat /\
  (fx_idx st + n_fx st <= n)%nat /\
  length (population st) = S (n_steps st) /\
  length (deaths st) = n_steps st /\
  length (births st) = n_steps st /\
  length (infants st) = n_steps st /\
  length (migrations st) = n_steps st /\
  Forall (fun c => length c = n) (population st) /\
  Forall (fun c => length c = S n) (deaths st) /\
  (forall k, (k < n_steps st)%nat ->
     (S n <= length (col (sx st) k))%nat /\
     (n <= length (col (gx st) k))%nat /\
     length (col (fx st) k) = n_fx st).

(** Consistent inputs of [ccmpp]: [basepop] has [n_ages >= 1] entries,
    every step's [sx] column has at least [n_ages+1] entries, its [gx]
    column at least [n_ages], its [fx] column [n_fx] entries, and the
    fertile window lies inside the age range. *)
Definition ccmpp_input_ok (basepop : vec) (sx fx gx : table) (fx_idx : nat) : Prop :=
  let n := length basepop in
  (1 <= n)%nat /\
  (fx_idx + rows fx <= n)%nat /\
  (forall k, (k < length sx)%nat ->
     (S n <= length (col sx k))%nat /\
     (n <= length (col gx k))%nat /\
     length (col fx k) = rows fx).

(** Names for the parts of [make_leslie_matrix], used in the proofs. *)
Definition fert_k_of (sx : vec) (srb age_span : Qc) : Qc :=
  at_ sx 0 * half * age_span / (1 + srb).
Definition fert_leslie_of (sx fx : vec) (fx_idx : nat) (fert_k : Qc) : vec :=
  map (fun x => x * fert_k)
    (add_block (add_block (repeat 0 (S (length fx))) 0
                  (vmul fx (segment sx fx_idx (length fx)))) 1 fx).
Definition leslie_entries (sx fx : vec) (fx_idx : nat) (fert_k : Qc) :=
  let dim := (length sx - 1)%nat in
  map (fun i => (0%nat, (fx_idx + i - 1)%nat, at_ (fert_leslie_of sx fx fx_idx fert_k) i))
      (seq 0 (S (length fx))) ++
  map (fun i => (i, (i - 1)%nat, at_ sx i)) (seq 1 (dim - 1)) ++
  [((dim - 1)%nat, (dim - 1)%nat, at_ sx dim)].

(** The parameters of a container: no step changes them. *)
Definition params (st : PopulationProjection) :=
  (n_ages st, n_steps st, n_fx st, fx_idx st, age_span st,
   sx st, fx st, gx st, srb st).

(** * Lemmas on the list model of Eigen arrays *)

Section ListFacts.

Lemma length_upd {A} (l : list A) i x : length (upd l i x) = length l.
Proof. revert i; induction l as [|y l IH]; intros [|i]; simpl; auto. Qed.

Lemma nth_upd_same {A} (l : list A) i x d :
  (i < length l)%nat -> nth i (upd l i x) d = x.
Proof.
  revert i; induction l as [|y l IH]; intros [|i] H; simpl in *; try lia; auto.
  apply IH; lia.
Qed.

Lemma nth_upd_other {A} (l : list A) i j x d :
  i <> j -> nth j (upd l i x) d = nth j l d.
Proof.
  revert i j; induction l as [|y l IH]; intros [|i] [|j] H; simpl; auto;
    try congruence.
Qed.

Lemma length_zipw f a b : length (zipw f a b) = Nat.min (length a) (length b).
Proof. revert b; induction a as [|x a IH]; intros [|y b]; simpl; auto. Qed.

Lemma at_zipw f a b i :
  (i < length a)%nat -> (i < length b)%nat ->
  at_ (zipw f a b) i = f (at_ a i) (at_ b i).
Proof.
  unfold at_; revert b i; induction a as [|x a IH]; intros [|y b] [|i] Ha Hb;
    simpl in *; try lia; auto.
  apply IH; lia.
Qed.

Lemma length_vadd a b : length (vadd a b) = Nat.min (length a) (length b).
Proof. apply length_zipw. Qed.

Lemma length_vmul a b : length (vmul a b) = Nat.min (length a) (length b).
Proof. apply length_zipw. Qed.

Lemma length_vscale c v : length (vscale c v) = length v.
Proof. apply length_map. Qed.

Lemma at_vadd a b i :
  (i < length a)%nat -> (i < length b)%nat -> at_ (vadd a b) i = at_ a i + at_ b i.
Proof. apply at_zipw. Qed.

Lemma at_vmul a b i :
  (i < length a)%nat -> (i < length b)%nat -> at_ (vmul a b) i = at_ a i * at_ b i.
Proof. apply at_zipw. Qed.

Lemma at_map (f : Qc -> Qc) v i :
  (i < length v)%nat -> at_ (map f v) i = f (at_ v i).
Proof.
  unfold at_; revert i; induction v as [|x v IH]; intros [|i] H; simpl in *;
    try lia; auto.
  apply IH; lia.
Qed.

Lemma at_vscale c v i : (i < length v)%nat -> at_ (vscale c v) i = c * at_ v i.
Proof. apply at_map. Qed.

Lemma at_upd_same v i x : (i < length v)%nat -> at_ (upd v i x) i = x.
Proof. apply nth_upd_same. Qed.

Lemma at_upd_other v i j x : i <> j -> at_ (upd v i x) j = at_ v j.
Proof. apply nth_upd_other. Qed.

Lemma length_segment v s len :
  (s + len <= length v)%nat -> length (segment v s len) = len.
Proof. intros H; unfold segment; rewrite length_firstn, length_skipn; lia. Qed.

Lemma at_segment v s len i :
  (i < len)%nat -> at_ (segment v s len) i = at_ v (s + i).
Proof.
  intros H; unfold at_, segment; rewrite nth_firstn, nth_skipn.
  destruct (Nat.ltb_spec i len); [reflexivity | lia].
Qed.

Lemma length_assign_segment v s xs :
  (s + length xs <= length v)%nat -> length (assign_segment v s xs) = length v.
Proof.
  intros H; unfold assign_segment.
  rewrite !length_app, length_firstn, length_skipn; lia.
Qed.

Lemma at_assign_segment_in v s xs i :
  (s + length xs <= length v)%nat -> (i < length xs)%nat ->
  at_ (assign_segment v s xs) (s + i) = at_ xs i.
Proof.
  intros H Hi; unfold at_, assign_segment.
  rewrite app_nth2; rewrite length_firstn; [|lia].
  replace (s + i - Nat.min s (length v))%nat with i by lia.
  rewrite app_nth1; auto.
Qed.

Lemma at_assign_segment_before v s xs i :
  (s <= length v)%nat -> (i < s)%nat -> at_ (assign_segment v s xs) i = at_ v i.
Proof.
  intros Hs Hi; unfold at_, assign_segment.
  rewrite app_nth1 by (rewrite length_firstn; lia).
  rewrite nth_firstn; destruct (Nat.ltb_spec i s); [reflexivity | lia].
Qed.

Lemma length_aging_loop age p d : length (aging_loop age p d) = length p.
Proof.
  revert p; induction age as [|a IH]; intros p; simpl; auto.
  rewrite IH, length_upd; reflexivity.
Qed.

(** The aging shift: iterations [age] down to [1] move each group up by
    one, reading the not yet overwritten younger entry. *)
Lemma at_aging_loop age p d i :
  (age < length p)%nat ->
  at_ (aging_loop age p d) i =
  if andb (1 <=? i)%nat (i <=? age)%nat then at_ p (i - 1) - at_ d i else at_ p i.
Proof.
  revert p; induction age as [|a IH]; intros p Hp; cbn [aging_loop].
  - destruct (Nat.leb_spec 1 i), (Nat.leb_spec i 0); simpl; auto; lia.
  - rewrite IH by (rewrite length_upd; lia).
    destruct (Nat.eq_dec i (S a)) as [->|Hne].
    + rewrite Nat.leb_refl, andb_true_r.
      replace ((S a) <=? a)%nat with false by (symmetry; apply Nat.leb_gt; lia).
      simpl. rewrite at_upd_same by lia. do 3 f_equal. lia.
    + destruct (Nat.leb_spec 1 i), (Nat.leb_spec i a), (Nat.leb_spec i (S a));
        simpl; try lia; rewrite at_upd_other by lia; reflexivity.
Qed.

End ListFacts.

(** * Finite sums *)

Section Sums.

Lemma sumf_ext n f g :
  (forall i, (i < n)%nat -> f i = g i) -> sumf n f = sumf n g.
Proof.
  induction n as [|n IH]; intros H; simpl; auto.
  rewrite IH by (intros; apply H; lia). rewrite H by lia. reflexivity.
Qed.

Lemma sumf_shift n f : sumf (S n) f = f 0%nat + sumf n (fun i => f (S i)).
Proof.
  induction n as [|n IH]; simpl in *.
  - ring.
  - rewrite IH. ring.
Qed.

Lemma sumf_minus n f g :
  sumf n (fun i => f i - g i) = sumf n f - sumf n g.
Proof. induction n as [|n IH]; simpl; [ring | rewrite IH; ring]. Qed.

Lemma sumf_zero n f : (forall i, (i < n)%nat -> f i = 0) -> sumf n f = 0.
Proof.
  intros H. rewrite (sumf_ext n f (fun _ => 0)) by auto.
  clear H; induction n as [|n IH]; simpl; [reflexivity | rewrite IH; ring].
Qed.

Lemma vsum_sumf v : vsum v = sumf (length v) (at_ v).
Proof.
  induction v as [|x v IH]; [reflexivity|].
  change (vsum (x :: v)) with (x + vsum v).
  change (length (x :: v)) with (S (length v)).
  rewrite sumf_shift, IH. reflexivity.
Qed.

End Sums.

(** * One step of the direct recurrence, entry by entry *)

Lemma step_projection_unfold st k :
  step_projection st k =
  (inf <- divM (vsum (births_at st k)) (1 + at_ (srb st) k) ;;
   Some (store_step st k inf)).
Proof. reflexivity. Qed.

Lemma col_set_col_same M j c : (j < length M)%nat -> col (set_col M j c) j = c.
Proof. apply nth_upd_same. Qed.

Lemma col_set_col_other M j j' c : j <> j' -> col (set_col M j c) j' = col M j'.
Proof. apply nth_upd_other. Qed.

Lemma length_set_col M j c : length (set_col M j c) = length M.
Proof. apply length_upd. Qed.

Lemma at_firstn v m i : (i < m)%nat -> at_ (firstn m v) i = at_ v i.
Proof.
  intros H; unfold at_; rewrite nth_firstn.
  destruct (Nat.ltb_spec i m); [reflexivity | lia].
Qed.

Ltac unpack_wf H :=
  destruct H as (Hn & Hp & Hsx & Hgx & Hfx & Hwin & Hd & Hpl & Hdl & Hbl & Hil & Hml).

Section StepFacts.

Variable st : PopulationProjection.
Variable k : nat.
Hypothesis Hwf : step_wf st k.

Lemma length_sx_at : length (sx_at st k) = S (n_ages st).
Proof. unpack_wf Hwf. unfold sx_at. rewrite length_firstn. lia. Qed.

Lemma length_mig_at : length (mig_at st k) = n_ages st.
Proof.
  unpack_wf Hwf. unfold mig_at, gx_at.
  rewrite length_vmul, length_firstn. lia.
Qed.

Lemma at_mig_at a : (a < n_ages st)%nat ->
  at_ (mig_at st k) a = at_ (col (population st) k) a * at_ (col (gx st) k) a.
Proof.
  intros Ha. pose proof Hwf as W. unpack_wf W. unfold mig_at, gx_at.
  rewrite at_vmul; [| lia | rewrite length_firstn; lia].
  rewrite at_firstn by lia. reflexivity.
Qed.

Lemma length_work_at : length (work_at st k) = n_ages st.
Proof.
  pose proof length_mig_at as M. unpack_wf Hwf. unfold work_at.
  rewrite length_vadd, length_vscale, M. lia.
Qed.

Lemma at_work_at a : (a < n_ages st)%nat ->
  at_ (work_at st k) a = at_ (col (population st) k) a + half * at_ (mig_at st k) a.
Proof.
  intros Ha. pose proof length_mig_at as M. pose proof Hwf as W. unpack_wf W.
  unfold work_at. rewrite at_vadd by (rewrite ?length_vscale; lia).
  rewrite at_vscale by lia. reflexivity.
Qed.

Lemma deaths_new_facts :
  let xs := vmul (work_at st k)
              (map (fun s => 1 - s) (segment (sx_at st k) 1 (n_ages st))) in
  length xs = n_ages st /\
  forall a, (a < n_ages st)%nat ->
    at_ xs a = at_ (work_at st k) a * (1 - at_ (col (sx st) k) (S a)).
Proof.
  pose proof length_work_at as Wl. pose proof length_sx_at as Sl.
  pose proof Hwf as W. unpack_wf W.
  assert (Lseg : length (segment (sx_at st k) 1 (n_ages st)) = n_ages st)
    by (apply length_segment; lia).
  simpl. split.
  - rewrite length_vmul, length_map. lia.
  - intros a Ha. rewrite at_vmul by (rewrite ?length_map; lia).
    rewrite at_map by lia. rewrite at_segment by lia.
    unfold sx_at. rewrite at_firstn by lia. reflexivity.
Qed.

Lemma length_deaths1_at : length (deaths1_at st k) = S (n_ages st).
Proof.
  destruct deaths_new_facts as [L _]. pose proof Hwf as W. unpack_wf W.
  unfold deaths1_at. rewrite length_assign_segment; rewrite ?L; lia.
Qed.

Lemma at_deaths1_at a : (a < n_ages st)%nat ->
  at_ (deaths1_at st k) (S a) =
  at_ (work_at st k) a * (1 - at_ (col (sx st) k) (S a)).
Proof.
  intros Ha. destruct deaths_new_facts as [L E]. pose proof Hwf as W. unpack_wf W.
  unfold deaths1_at. change (S a) with (1 + a)%nat.
  rewrite at_assign_segment_in; rewrite ?L; try lia. apply E; lia.
Qed.

Lemma length_aged_at : length (aged_at st k) = n_ages st.
Proof.
  unfold aged_at. rewrite length_upd, length_aging_loop. apply length_work_at.
Qed.

Lemma at_aged_at_mid i : (1 <= i)%nat -> (S i < n_ages st)%nat ->
  at_ (aged_at st k) i = at_ (work_at st k) (i - 1) - at_ (deaths1_at st k) i.
Proof.
  intros H1 H2. pose proof length_work_at as Wl.
  unfold aged_at. rewrite at_upd_other by lia.
  rewrite at_aging_loop by lia.
  destruct (Nat.leb_spec 1 i), (Nat.leb_spec i (n_ages st - 1)); simpl; try lia.
  reflexivity.
Qed.

(** The open age group: its aged-up entrants plus its own survivors. *)
Lemma at_aged_at_last : (2 <= n_ages st)%nat ->
  at_ (aged_at st k) (n_ages st - 1) =
  (at_ (work_at st k) (n_ages st - 2) - at_ (deaths1_at st k) (n_ages st - 1)) +
  (at_ (work_at st k) (n_ages st - 1) - at_ (deaths1_at st k) (n_ages st)).
Proof.
  intros H2. pose proof length_work_at as Wl.
  unfold aged_at. rewrite at_upd_same by (rewrite length_aging_loop; lia).
  rewrite at_aging_loop by lia.
  destruct (Nat.leb_spec 1 (n_ages st - 1)), (Nat.leb_spec (n_ages st - 1) (n_ages st - 1));
    simpl; try lia.
  replace (n_ages st - 1 - 1)%nat with (n_ages st - 2)%nat by lia. reflexivity.
Qed.

Lemma length_deaths2_at inf : length (deaths2_at st k inf) = S (n_ages st).
Proof. unfold deaths2_at. rewrite length_upd. apply length_deaths1_at. Qed.

Lemma at_deaths2_at_0 inf :
  at_ (deaths2_at st k inf) 0 = inf * (1 - at_ (col (sx st) k) 0).
Proof.
  pose proof length_deaths1_at as L. pose proof Hwf as W. unpack_wf W.
  unfold deaths2_at. rewrite at_upd_same by lia.
  unfold sx_at. rewrite at_firstn by lia. reflexivity.
Qed.

Lemma at_deaths2_at_S inf a :
  at_ (deaths2_at st k inf) (S a) = at_ (deaths1_at st k) (S a).
Proof. unfold deaths2_at. apply at_upd_other. lia. Qed.

Lemma length_pop_next_at inf : length (pop_next_at st k inf) = n_ages st.
Proof.
  pose proof length_aged_at as A. pose proof length_mig_at as M.
  unfold pop_next_at. rewrite length_vadd, length_upd, length_vscale, A, M. lia.
Qed.

Lemma at_pop_next_at_0 inf :
  at_ (pop_next_at st k inf) 0 =
  (inf - inf * (1 - at_ (col (sx st) k) 0)) + half * at_ (mig_at st k) 0.
Proof.
  pose proof length_aged_at as A. pose proof length_mig_at as M.
  pose proof Hwf as W. unpack_wf W.
  unfold pop_next_at.
  rewrite at_vadd by (rewrite ?length_upd, ?length_vscale; lia).
  rewrite at_upd_same by lia. rewrite at_vscale by lia.
  rewrite at_deaths2_at_0. reflexivity.
Qed.

Lemma at_pop_next_at_S inf i : (1 <= i)%nat -> (i < n_ages st)%nat ->
  at_ (pop_next_at st k inf) i = at_ (aged_at st k) i + half * at_ (mig_at st k) i.
Proof.
  intros H1 H2. pose proof length_aged_at as A. pose proof length_mig_at as M.
  unfold pop_next_at.
  rewrite at_vadd by (rewrite ?length_upd, ?length_vscale; lia).
  rewrite at_upd_other by lia. rewrite at_vscale by lia. reflexivity.
Qed.

End StepFacts.

(** * What a step writes *)

Lemma divM_some x y z : divM x y = Some z -> y <> 0 /\ z = x / y.
Proof. unfold divM. destruct (Qc_eq_dec y 0); intros H; inversion H; auto. Qed.

Lemma divM_nonzero x y : y <> 0 -> divM x y = Some (x / y).
Proof. unfold divM. destruct (Qc_eq_dec y 0); congruence. Qed.

Lemma step_projection_some st k st' :
  step_projection st k = Some st' ->
  exists inf, 1 + at_ (srb st) k <> 0 /\
              inf = vsum (births_at st k) / (1 + at_ (srb st) k) /\
              st' = store_step st k inf.
Proof.
  rewrite step_projection_unfold. unfold bind.
  destruct (divM _ _) as [inf|] eqn:E; intros H; inversion H; subst.
  apply divM_some in E as [E1 E2]. eauto.
Qed.

Lemma srb_denominator s : s <> Qcopp 1 -> 1 + s <> 0.
Proof.
  intros H E. apply H.
  transitivity ((1 + s) - 1); [ring | rewrite E; ring].
Qed.

Lemma step_projection_defined st k :
  1 + at_ (srb st) k <> 0 -> exists st', step_projection st k = Some st'.
Proof.
  intros H. rewrite step_projection_unfold, divM_nonzero by exact H.
  eexists; reflexivity.
Qed.

Section StoreFacts.

Variable st : PopulationProjection.
Variable k : nat.
Variable inf : Qc.
Hypothesis Hwf : step_wf st k.

Lemma store_population_next :
  col (population (store_step st k inf)) (S k) = pop_next_at st k inf.
Proof. unpack_wf Hwf. apply col_set_col_same; lia. Qed.

Lemma store_population_other j : j <> S k ->
  col (population (store_step st k inf)) j = col (population st) j.
Proof. intros; apply col_set_col_other; lia. Qed.

Lemma store_deaths : col (deaths (store_step st k inf)) k = deaths2_at st k inf.
Proof. unpack_wf Hwf. apply col_set_col_same; lia. Qed.

Lemma store_births : col (births (store_step st k inf)) k = births_at st k.
Proof. unpack_wf Hwf. apply col_set_col_same; lia. Qed.

Lemma store_infants : at_ (infants (store_step st k inf)) k = inf.
Proof. unpack_wf Hwf. apply at_upd_same; lia. Qed.

Lemma store_migrations : col (migrations (store_step st k inf)) k = mig_at st k.
Proof. unpack_wf Hwf. apply col_set_col_same; lia. Qed.

End StoreFacts.

(** * Claims on one step of [step_projection] *)

(** C4: the open (oldest) age group.  Writing [w] for the previous
    population column plus half the step's migrants, the new oldest entry
    is [(w[n-2] - deaths[n-1]) + (w[n-1] - deaths[n]) + 0.5 * migrations[n-1]]:
    the aged-up survivors of the next-oldest group plus the group's own
    survivors, then the second migration half-step. *)
Theorem open_age_group_accumulates st k st' :
  step_wf st k -> (2 <= n_ages st)%nat ->
  step_projection st k = Some st' ->
  let n := n_ages st in
  let m := col (migrations st') k in
  let d := col (deaths st') k in
  let w a := at_ (col (population st) k) a + half * at_ m a in
  at_ (col (population st') (S k)) (n - 1) =
  (w (n - 2)%nat - at_ d (n - 1)) + (w (n - 1)%nat - at_ d n) + half * at_ m (n - 1).
Proof.
  intros Hwf H2 Hstep. apply step_projection_some in Hstep as (inf & _ & _ & ->).
  pose proof Hwf as W. unpack_wf W. cbv zeta.
  rewrite store_population_next, store_migrations, store_deaths by exact Hwf.
  rewrite at_pop_next_at_S, at_aged_at_last by (auto; lia).
  destruct (n_ages st) as [|[|m]] eqn:En; try lia.
  replace (S (S m) - 2)%nat with m by lia.
  replace (S (S m) - 1)%nat with (S m) by lia.
  rewrite <- (at_work_at st k Hwf m), <- (at_work_at st k Hwf (S m)) by lia.
  rewrite !at_deaths2_at_S. reflexivity.
Qed.

(** C6: infant accounting.  With [srb[k] <> -1] the step succeeds;
    [infants[k]] is the sum of the step's births divided by [1 + srb[k]],
    the infant deaths [deaths[0][k]] are [infants[k] * (1 - sx[0][k])], and
    the new age-0 entry is the infant survivors [infants[k] - deaths[0][k]]
    (that is [infants[k] * sx[0][k]]) plus half the step's migrants. *)
Theorem infant_accounting st k :
  step_wf st k -> at_ (srb st) k <> Qcopp 1 ->
  exists st', step_projection st k = Some st' /\
    let inf := at_ (infants st') k in
    let d0 := at_ (col (deaths st') k) 0 in
    let s0 := at_ (col (sx st) k) 0 in
    inf = vsum (col (births st') k) / (1 + at_ (srb st) k) /\
    d0 = inf * (1 - s0) /\
    at_ (col (population st') (S k)) 0 =
      (inf - d0) + half * at_ (col (migrations st') k) 0 /\
    inf - d0 = inf * s0.
Proof.
  intros Hwf Hsrb.
  destruct (step_projection_defined st k (srb_denominator _ Hsrb)) as [st' Hstep].
  exists st'. split; [exact Hstep|].
  apply step_projection_some in Hstep as (inf & _ & Hinf & ->).
  cbv zeta.
  rewrite store_infants, store_births, store_deaths, store_population_next,
    store_migrations by exact Hwf.
  rewrite at_deaths2_at_0, at_pop_next_at_0 by exact Hwf.
  repeat split; [exact Hinf | ring].
Qed.

(** C2: closed-population conservation.  When the step's migration rates
    are zero, everyone of population column [k] ages into column [k+1] or
    dies, and the infants are added:
    [sum pop[k+1] + sum deaths[k] = sum pop[k] + infants[k]].
    The model domain has [n_ages >= 2] (spec, 4.3). *)
Theorem closed_population_conservation st k st' :
  step_wf st k -> (2 <= n_ages st)%nat ->
  (forall a, (a < n_ages st)%nat -> at_ (col (gx st) k) a = 0) ->
  step_projection st k = Some st' ->
  vsum (col (population st') (S k)) + vsum (col (deaths st') k) =
  vsum (col (population st') k) + at_ (infants st') k.
Proof.
  intros Hwf H2 Hg Hstep.
  apply step_projection_some in Hstep as (inf & _ & _ & ->).
  rewrite store_population_next, store_deaths, store_infants,
    store_population_other by (auto; lia).
  pose proof Hwf as W. unpack_wf W.
  (* no migrants: the working population is the previous column *)
  assert (Hm : forall a, (a < n_ages st)%nat -> at_ (mig_at st k) a = 0).
  { intros a Ha. rewrite at_mig_at, Hg by auto. ring. }
  assert (Hw : forall a, (a < n_ages st)%nat ->
                 at_ (work_at st k) a = at_ (col (population st) k) a).
  { intros a Ha. rewrite at_work_at, Hm by auto. ring. }
  rewrite !vsum_sumf, length_pop_next_at, length_deaths2_at, Hp by exact Hwf.
  destruct (n_ages st) as [|[|m]] eqn:En; try lia.
  rewrite (sumf_shift (S m) (at_ (pop_next_at st k inf))),
    (sumf_shift (S (S m)) (at_ (deaths2_at st k inf))).
  cbn [sumf].
  (* population column k+1 *)
  rewrite at_pop_next_at_0, Hm by (auto; lia).
  rewrite (at_pop_next_at_S st k Hwf inf (S m)), Hm by lia.
  replace (S m) with (n_ages st - 1)%nat at 1 by lia.
  rewrite at_aged_at_last by (auto; lia).
  rewrite En. replace (S (S m) - 2)%nat with m by lia.
  replace (S (S m) - 1)%nat with (S m) by lia.
  rewrite (sumf_ext m (fun i => at_ (pop_next_at st k inf) (S i))
             (fun i => at_ (col (population st) k) i - at_ (deaths1_at st k) (S i))).
  2:{ intros i Hi. rewrite at_pop_next_at_S, Hm by (auto; lia).
      rewrite at_aged_at_mid by (auto; lia).
      replace (S i - 1)%nat with i by lia. rewrite Hw by lia. ring. }
  rewrite sumf_minus, !Hw by lia.
  (* deaths column k *)
  rewrite (sumf_ext m (fun i => at_ (deaths2_at st k inf) (S i))
             (fun i => at_ (deaths1_at st k) (S i)))
    by (intros; apply at_deaths2_at_S).
  rewrite !at_deaths2_at_S, at_deaths2_at_0 by exact Hwf.
  ring.
Qed.

(** * Locality of a step *)

(** The aging loop reads [deaths_t] only at ages [>= 1]. *)
Lemma aging_loop_head_irrel age p a a' xs :
  aging_loop age p (a :: xs) = aging_loop age p (a' :: xs).
Proof.
  revert p; induction age as [|j IH]; intros p; [reflexivity|].
  cbn [aging_loop]. apply IH.
Qed.

(** Line 145 rewrites the deaths column except its entry 0. *)
Lemma deaths1_at_cons st k : step_wf st k ->
  deaths1_at st k =
  at_ (col (deaths st) k) 0 ::
  vmul (work_at st k) (map (fun s => 1 - s) (segment (sx_at st k) 1 (n_ages st))).
Proof.
  intros Hwf. destruct (deaths_new_facts st k Hwf) as [L _]. revert L.
  pose proof Hwf as W. unpack_wf W. unfold deaths1_at.
  generalize (vmul (work_at st k) (map (fun s => 1 - s) (segment (sx_at st k) 1 (n_ages st)))).
  intros xs L. destruct (col (deaths st) k) as [|d0 ds] eqn:Ed; simpl in Hd; [lia|].
  unfold assign_segment. simpl. rewrite skipn_all2 by lia. rewrite app_nil_r.
  reflexivity.
Qed.

(** Two states that agree on what step [k] reads: the scalars, population
    column [k], and column [k] of [sx], [fx], [gx] and [srb]. *)
Lemma step_reads_only_column_k st st2 k :
  step_wf st k -> step_wf st2 k ->
  n_ages st2 = n_ages st -> n_fx st2 = n_fx st -> fx_idx st2 = fx_idx st ->
  age_span st2 = age_span st ->
  col (population st2) k = col (population st) k ->
  col (sx st2) k = col (sx st) k -> col (fx st2) k = col (fx st) k ->
  col (gx st2) k = col (gx st) k -> at_ (srb st2) k = at_ (srb st) k ->
  births_at st2 k = births_at st k /\
  (forall inf, outputs_at (store_step st2 k inf) k = outputs_at (store_step st k inf) k).
Proof.
  intros W1 W2 En Enf Eidx Eas Ep Esx Efx Egx Esrb.
  assert (Em : mig_at st2 k = mig_at st k)
    by (unfold mig_at, gx_at; rewrite En, Ep, Egx; reflexivity).
  assert (Ew : work_at st2 k = work_at st k)
    by (unfold work_at; rewrite Em, Ep; reflexivity).
  assert (Esxa : sx_at st2 k = sx_at st k)
    by (unfold sx_at; rewrite En, Esx; reflexivity).
  pose proof (deaths1_at_cons st k W1) as D1.
  pose proof (deaths1_at_cons st2 k W2) as D2.
  rewrite Ew, Esxa, En in D2.
  assert (Ea : aged_at st2 k = aged_at st k).
  { pose proof W1 as W. unpack_wf W.
    unfold aged_at. rewrite En, Ew, D1, D2, (aging_loop_head_irrel _ _ _ (at_ (col (deaths st) k) 0)).
    destruct (n_ages st) as [|n'] eqn:E; [lia|]. reflexivity. }
  assert (Eb : births_at st2 k = births_at st k)
    by (unfold births_at; rewrite Eas, Efx, Ew, Ea, Eidx, Enf; reflexivity).
  split; [exact Eb|]. intros inf.
  assert (Ed : deaths2_at st2 k inf = deaths2_at st k inf)
    by (unfold deaths2_at; rewrite D1, D2, Esxa; reflexivity).
  assert (Epn : pop_next_at st2 k inf = pop_next_at st k inf)
    by (unfold pop_next_at; rewrite Ea, Ed, Em; reflexivity).
  unfold outputs_at.
  rewrite !store_population_next, !store_deaths, !store_births, !store_infants,
    !store_migrations by assumption.
  rewrite Epn, Ed, Eb, Em. reflexivity.
Qed.

(** C8: frame and locality of one step.  [step_projection st k] writes only
    population column [k+1] and column [k] of [deaths], [births],
    [migrations] and [infants]; every other column and the parameter
    tables are unchanged.  What it writes is determined by population
    column [k] and column [k] of [sx], [fx], [gx] and [srb] (and the
    container's scalars): a well-shaped container that agrees with [st] on
    these gets the same written columns (or fails the same way). *)
Theorem step_projection_frame st k st' :
  step_projection st k = Some st' ->
  (n_ages st' = n_ages st /\ n_steps st' = n_steps st /\ n_fx st' = n_fx st /\
   fx_idx st' = fx_idx st /\ age_span st' = age_span st /\
   sx st' = sx st /\ fx st' = fx st /\ gx st' = gx st /\ srb st' = srb st /\
   (forall j, j <> S k -> col (population st') j = col (population st) j) /\
   (forall j, j <> k ->
      col (deaths st') j = col (deaths st) j /\
      col (births st') j = col (births st) j /\
      at_ (infants st') j = at_ (infants st) j /\
      col (migrations st') j = col (migrations st) j)) /\
  (forall st2,
     step_wf st k -> step_wf st2 k ->
     n_ages st2 = n_ages st -> n_fx st2 = n_fx st -> fx_idx st2 = fx_idx st ->
     age_span st2 = age_span st ->
     col (population st2) k = col (population st) k ->
     col (sx st2) k = col (sx st) k -> col (fx st2) k = col (fx st) k ->
     col (gx st2) k = col (gx st) k -> at_ (srb st2) k = at_ (srb st) k ->
     option_map (fun s => outputs_at s k) (step_projection st2 k) =
     Some (outputs_at st' k)).
Proof.
  intros Hstep. pose proof Hstep as Hs.
  apply step_projection_some in Hs as (inf & Hden & Hinf & ->).
  split.
  - cbn [n_ages n_steps n_fx fx_idx age_span sx fx gx srb store_step].
    do 9 (split; [reflexivity|]). split.
    + intros j Hj. apply col_set_col_other. congruence.
    + intros j Hj. repeat split;
        (apply col_set_col_other || apply at_upd_other); congruence.
  - intros st2 W1 W2 En Enf Eidx Eas Ep Esx Efx Egx Esrb.
    destruct (step_reads_only_column_k st st2 k W1 W2 En Enf Eidx Eas Ep Esx Efx Egx Esrb)
      as [Eb Eo].
    rewrite step_projection_unfold, Eb, Esrb, divM_nonzero by exact Hden.
    simpl. rewrite Eo, <- Hinf. reflexivity.
Qed.

(** * Divisions *)

Lemma make_leslie_matrix_fails sx fx srb age_span fx_idx :
  make_leslie_matrix sx fx srb age_span fx_idx = None <-> 1 + srb = 0.
Proof.
  unfold make_leslie_matrix, bind, divM.
  destruct (Qc_eq_dec (1 + srb) 0); split; congruence.
Qed.

Lemma step_projection_fails st k :
  step_projection st k = None <-> 1 + at_ (srb st) k = 0.
Proof.
  rewrite step_projection_unfold. unfold bind, divM.
  destruct (Qc_eq_dec (1 + at_ (srb st) k) 0); split; congruence.
Qed.

Lemma run_steps_defined fuel k st :
  (forall j, (k <= j < k + fuel)%nat -> 1 + at_ (srb st) j <> 0) ->
  exists r, run_steps k fuel st = Some r.
Proof.
  revert k st; induction fuel as [|fuel IH]; intros k st H; simpl.
  - eauto.
  - destruct (step_projection_defined st k) as [st' Hs]; [apply H; lia|].
    rewrite Hs. simpl. apply IH.
    apply step_projection_some in Hs as (inf & _ & _ & ->). simpl.
    intros j Hj. apply H. lia.
Qed.

Lemma leslie_steps_defined sx fx gx srb age_span fx_idx fuel step pop :
  (forall j, (step <= j < step + fuel)%nat -> 1 + at_ srb j <> 0) ->
  exists m, leslie_steps sx fx gx srb age_span fx_idx step fuel pop = Some m.
Proof.
  revert step pop; induction fuel as [|fuel IH]; intros step pop H; simpl.
  - eauto.
  - destruct (make_leslie_matrix (col sx step) (col fx step) (at_ srb step)
                age_span fx_idx) as [L|] eqn:E.
    + simpl. apply IH. intros j Hj. apply H. lia.
    + apply make_leslie_matrix_fails in E. exfalso. apply (H step); [lia | exact E].
Qed.

Lemma srb_gt_minus_one s : Qcopp 1 < s -> 1 + s <> 0.
Proof.
  intros H. apply srb_denominator. intros E. subst s.
  exact (Qclt_not_eq _ _ H eq_refl).
Qed.

(** C9: the only divisions of the kernel are by [1 + srb] of the current
    step: [make_leslie_matrix] and [step_projection] fail exactly when that
    denominator vanishes.  So when every [srb] entry is [> -1], neither
    driver reaches the division-by-zero branch. *)
Theorem no_division_by_zero :
  (forall sx fx srb age_span fx_idx,
     make_leslie_matrix sx fx srb age_span fx_idx = None <-> 1 + srb = 0) /\
  (forall st k, step_projection st k = None <-> 1 + at_ (srb st) k = 0) /\
  (forall basepop sx fx gx srb age_span fx_idx,
   (forall k, (k < length sx)%nat -> Qcopp 1 < at_ srb k) ->
   (exists r, ccmpp basepop sx fx gx srb age_span fx_idx = Some r) /\
   (exists m, ccmpp_leslie basepop sx fx gx srb age_span fx_idx = Some m)).
Proof.
  split; [exact make_leslie_matrix_fails|].
  split; [exact step_projection_fails|].
  intros basepop sx fx gx srb age_span fx_idx H. split.
  - unfold ccmpp. apply run_steps_defined. simpl.
    intros j Hj. apply srb_gt_minus_one, H. lia.
  - unfold ccmpp_leslie. apply leslie_steps_defined.
    intros j Hj. apply srb_gt_minus_one, H. lia.
Qed.

(** * Whole runs of [ccmpp] *)

Lemma Forall_upd {A} (P : A -> Prop) l i x :
  Forall P l -> P x -> Forall P (upd l i x).
Proof.
  intros Hl Hx. revert i. induction Hl as [|y l Hy Hl IH]; intros [|i]; simpl;
    constructor; auto.
Qed.

Lemma Forall_nth_default {A} (P : A -> Prop) l d k :
  Forall P l -> P d -> P (nth k l d).
Proof.
  intros Hl Hd. revert k. induction Hl as [|y l Hy Hl IH]; intros [|k]; simpl; auto.
Qed.

Lemma step_wf_of_proj_wf st k :
  proj_wf st -> (k < n_steps st)%nat -> step_wf st k.
Proof.
  intros (Hn & Hw & Lp & Ld & Lb & Li & Lm & Fp & Fd & Hcols) Hk.
  destruct (Hcols k Hk) as (Hs & Hg & Hf).
  rewrite Forall_forall in Fp, Fd.
  unfold step_wf. repeat split; try lia; try assumption.
  - apply Fp, nth_In. lia.
  - apply Fd, nth_In. lia.
Qed.

Lemma proj_wf_store st k inf :
  proj_wf st -> (k < n_steps st)%nat -> proj_wf (store_step st k inf).
Proof.
  intros Hp Hk. pose proof (step_wf_of_proj_wf st k Hp Hk) as W.
  destruct Hp as (Hn & Hw & Lp & Ld & Lb & Li & Lm & Fp & Fd & Hcols).
  unfold proj_wf, store_step, set_col.
  cbn [n_ages n_steps n_fx fx_idx sx fx gx population deaths births infants migrations].
  rewrite !length_upd.
  repeat (split; [assumption|]).
  split; [apply Forall_upd; [exact Fp | exact (length_pop_next_at st k W inf)]|].
  split; [apply Forall_upd; [exact Fd | exact (length_deaths2_at st k W inf)]|].
  exact Hcols.
Qed.

Lemma proj_wf_make bp sxs fxs gxs srbs asp idx :
  ccmpp_input_ok bp sxs fxs gxs idx ->
  proj_wf (make_projection (length bp) (length sxs) (rows fxs) idx asp
             bp sxs fxs gxs srbs).
Proof.
  intros (Hn & Hw & Hcols). unfold proj_wf, make_projection, zeros, set_col.
  cbn [n_ages n_steps n_fx fx_idx sx fx gx population deaths births infants migrations].
  rewrite length_upd, !repeat_length.
  split; [exact Hn|]. split; [exact Hw|].
  do 5 (split; [reflexivity|]).
  split; [|split; [|exact Hcols]].
  - apply Forall_upd; [|reflexivity].
    apply Forall_forall. intros x Hx. apply repeat_spec in Hx. subst x.
    apply repeat_length.
  - apply Forall_forall. intros x Hx. apply repeat_spec in Hx. subst x.
    apply repeat_length.
Qed.

Lemma outputs_store_other st k inf j :
  j <> k -> outputs_at (store_step st k inf) j = outputs_at st j.
Proof.
  intros H. unfold outputs_at, store_step.
  cbn [population deaths births infants migrations].
  rewrite !col_set_col_other, at_upd_other by lia. reflexivity.
Qed.

Lemma run_steps_frame fuel : forall k st r,
  run_steps k fuel st = Some r ->
  params r = params st /\ forall j, (j < k)%nat -> outputs_at r j = outputs_at st j.
Proof.
  induction fuel as [|fuel IH]; intros k st r H; cbn [run_steps] in H.
  - inversion H; subst. auto.
  - unfold bind in H. destruct (step_projection st k) as [st'|] eqn:E; [|discriminate].
    apply IH in H as [Hp Ho].
    apply step_projection_some in E as (inf & _ & _ & ->).
    split; [exact Hp|]. intros j Hj. rewrite Ho by lia.
    apply outputs_store_other. lia.
Qed.

(** A property of what step [j] writes, established for every state a run
    can reach, holds of the columns [j] of the run's result. *)
Lemma run_steps_outputs_prop (Q : nat -> vec * vec * vec * Qc * vec -> Prop) st0 :
  (forall st j st', proj_wf st -> params st = params st0 -> (j < n_steps st0)%nat ->
     step_projection st j = Some st' -> Q j (outputs_at st' j)) ->
  forall fuel k st r, proj_wf st -> params st = params st0 ->
  (k + fuel <= n_steps st0)%nat -> run_steps k fuel st = Some r ->
  forall j, (k <= j < k + fuel)%nat -> Q j (outputs_at r j).
Proof.
  intros HQ fuel. induction fuel as [|fuel IH];
    intros k st r Hwf Hpar Hfuel Hrun j Hj; [lia|].
  cbn [run_steps] in Hrun. unfold bind in Hrun.
  destruct (step_projection st k) as [st'|] eqn:E; [|discriminate].
  pose proof (HQ st k st' Hwf Hpar ltac:(lia) E) as Hk.
  apply step_projection_some in E as (inf & _ & _ & Est').
  assert (Hns : n_steps st = n_steps st0) by (unfold params in Hpar; congruence).
  assert (Hwf' : proj_wf st') by (subst st'; apply proj_wf_store; [exact Hwf | lia]).
  assert (Hpar' : params st' = params st0) by (subst st'; exact Hpar).
  destruct (Nat.eq_dec j k) as [->|Hjk].
  - destruct (run_steps_frame fuel (S k) st' r Hrun) as [_ Ho].
    rewrite Ho by lia. exact Hk.
  - apply (IH (S k) st' r Hwf' Hpar'); [lia | exact Hrun | lia].
Qed.

Lemma zero_vmul_l a b :
  Forall (fun x => x = 0) a -> Forall (fun x => x = 0) (vmul a b).
Proof.
  intros Ha. revert b. induction Ha as [|x a Hx Ha IH]; intros [|y b]; simpl;
    constructor; auto.
  subst x. ring.
Qed.

Lemma zero_vadd a b :
  Forall (fun x => x = 0) a -> Forall (fun x => x = 0) b ->
  Forall (fun x => x = 0) (vadd a b).
Proof.
  intros Ha. revert b. induction Ha as [|x a Hx Ha IH]; intros [|y b] Hb; simpl;
    constructor; inversion Hb; subst; auto; ring.
Qed.

Lemma zero_vscale c a :
  Forall (fun x => x = 0) a -> Forall (fun x => x = 0) (vscale c a).
Proof.
  intros Ha. unfold vscale. apply Forall_map.
  eapply Forall_impl; [|exact Ha]. intros x ->. ring.
Qed.

Lemma vsum_zero v : Forall (fun x => x = 0) v -> vsum v = 0.
Proof.
  induction 1 as [|x v Hx Hv IH]; simpl; [reflexivity|]. rewrite Hx, IH. ring.
Qed.

Lemma births_at_zero st k :
  Forall (fun x => x = 0) (col (fx st) k) -> Forall (fun x => x = 0) (births_at st k).
Proof.
  intros H. unfold births_at.
  apply zero_vadd; apply zero_vmul_l, zero_vscale, H.
Qed.

(** One step with an all-zero fertility column. *)
Lemma zero_fertility_step st j st' :
  step_wf st j -> Forall (fun x => x = 0) (col (fx st) j) ->
  step_projection st j = Some st' ->
  Forall (fun x => x = 0) (col (births st') j) /\
  at_ (infants st') j = 0 /\
  at_ (col (deaths st') j) 0 = 0 /\
  at_ (col (population st') (S j)) 0 = half * at_ (col (migrations st') j) 0.
Proof.
  intros W Hf Hs.
  apply step_projection_some in Hs as (inf & Hden & Hinf & ->).
  pose proof (births_at_zero st j Hf) as Hb.
  assert (Hi0 : inf = 0) by (rewrite Hinf, (vsum_zero _ Hb); field; exact Hden).
  rewrite (store_population_next st j inf W), (store_deaths st j inf W),
    (store_births st j inf W), (store_infants st j inf W), (store_migrations st j inf W).
  rewrite (at_deaths2_at_0 st j W), (at_pop_next_at_0 st j W), Hi0.
  split; [exact Hb|]. split; [reflexivity|]. split; ring.
Qed.

Lemma zero_fertility_run bp sxs fxs gxs srbs asp idx :
  ccmpp_input_ok bp sxs fxs gxs idx ->
  (forall k, (k < length sxs)%nat -> Qcopp 1 < at_ srbs k) ->
  Forall (Forall (fun x => x = 0)) fxs ->
  exists r, ccmpp bp sxs fxs gxs srbs asp idx = Some r /\
  forall k, (k < length sxs)%nat ->
    Forall (fun x => x = 0) (col (births r) k) /\
    at_ (infants r) k = 0 /\
    at_ (col (deaths r) k) 0 = 0 /\
    at_ (col (population r) (S k)) 0 = half * at_ (col (migrations r) k) 0.
Proof.
  intros Hok Hsrb Hfx.
  pose (st0 := make_projection (length bp) (length sxs) (rows fxs) idx asp
                 bp sxs fxs gxs srbs).
  destruct (run_steps_defined (length sxs) 0 st0) as [r Hr].
  { intros j Hj. apply srb_gt_minus_one, Hsrb. simpl in Hj. lia. }
  exists r. split; [exact Hr|]. intros k Hk.
  pose (Q := fun (j : nat) (o : vec * vec * vec * Qc * vec) =>
          let '(p, d, b, inf, m) := o in
          Forall (fun x => x = 0) b /\ inf = 0 /\ at_ d 0 = 0 /\
          at_ p 0 = half * at_ m 0).
  assert (HQ : forall st j st', proj_wf st -> params st = params st0 ->
                 (j < n_steps st0)%nat -> step_projection st j = Some st' ->
                 Q j (outputs_at st' j)).
  { intros st j st' Hwf Hpar Hj Hs.
    assert (Hns : n_steps st = n_steps st0) by (unfold params in Hpar; congruence).
    assert (Ef : fx st = fxs) by (unfold params in Hpar; simpl in Hpar; congruence).
    apply (zero_fertility_step st j st'); [| |exact Hs].
    - apply step_wf_of_proj_wf; [exact Hwf | lia].
    - rewrite Ef. unfold col. apply Forall_nth_default; [exact Hfx | constructor]. }
  exact (run_steps_outputs_prop Q st0 HQ (length sxs) 0 st0 r
           (proj_wf_make bp sxs fxs gxs srbs asp idx Hok) eq_refl
           (le_n _) Hr k ltac:(simpl; lia)).
Qed.

(** C7: zero fertility.  If every entry of [fx] is zero (with consistent
    shapes and every [srb] entry [> -1], so that [ccmpp] runs), then for
    every step [k] the births column [k] and [infants[k]] are zero,
    [deaths[0][k]] is zero, and the age-0 entry of population column [k+1]
    is exactly [0.5 * migrations[0][k]]. *)
Theorem zero_fertility_stability basepop sx fx gx srb age_span fx_idx :
  ccmpp_input_ok basepop sx fx gx fx_idx ->
  (forall k, (k < length sx)%nat -> Qcopp 1 < at_ srb k) ->
  Forall (Forall (fun x => x = 0)) fx ->
  exists r, ccmpp basepop sx fx gx srb age_span fx_idx = Some r /\
  forall k, (k < length sx)%nat ->
    Forall (fun x => x = 0) (col (births r) k) /\
    at_ (infants r) k = 0 /\
    at_ (col (deaths r) k) 0 = 0 /\
    at_ (col (population r) (S k)) 0 = half * at_ (col (migrations r) k) 0.
Proof. exact (zero_fertility_run basepop sx fx gx srb age_span fx_idx). Qed.

Lemma list_eq_by_dec (l l' : list Qc) :
  (if list_eq_dec Qc_eq_dec l l' then true else false) = true -> l = l'.
Proof. destruct (list_eq_dec Qc_eq_dec l l'); congruence. Qed.

(** C5: the boundary scenario.  With [n_ages = 3], [basepop = [100; 100; 100]],
    [sx = [1; 1; 1; 1]], [fx = [0]] ([fx_idx = 1], [n_fx = 1]),
    [gx = [0; 0; 0]], [srb = 0] and one step, for every [age_span] the
    population column after the step is exactly [[0; 100; 200]]. *)
Theorem boundary_scenario (age_span : Qc) :
  exists r, ccmpp [qc 100; qc 100; qc 100] [[1; 1; 1; 1]] [[0]] [[0; 0; 0]] [0]
              age_span 1 = Some r /\
            col (population r) 1 = [qc 0; qc 100; qc 200].
Proof.
  pose (st0 := make_projection 3 1 1 1 age_span [qc 100; qc 100; qc 100]
                 [[1; 1; 1; 1]] [[0]] [[0; 0; 0]] [0]).
  assert (W : step_wf st0 0).
  { unfold step_wf. cbn. repeat split; lia. }
  assert (Hden : 1 + at_ (srb st0) 0 <> 0) by (vm_compute; discriminate).
  destruct (step_projection_defined st0 0 Hden) as [st' Hs].
  exists st'. split.
  { change (run_steps 0 1 st0 = Some st'). cbn [run_steps]. unfold bind.
    rewrite Hs. reflexivity. }
  apply step_projection_some in Hs as (inf & _ & Hinf & ->).
  assert (Hb : Forall (fun x => x = 0) (births_at st0 0)).
  { apply births_at_zero. repeat constructor. }
  assert (Hi0 : inf = 0) by (rewrite Hinf, (vsum_zero _ Hb); field; exact Hden).
  rewrite (store_population_next st0 0 inf W), Hi0.
  apply list_eq_by_dec. vm_compute. reflexivity.
Qed.

(** * The Leslie matrix *)

Lemma entry_sum_app es1 es2 i j :
  entry_sum (es1 ++ es2) i j = entry_sum es1 i j + entry_sum es2 i j.
Proof.
  induction es1 as [|[[r c] v] es1 IH]; simpl.
  - ring.
  - rewrite IH. destruct (andb _ _); ring.
Qed.

(** The fertility row: one insertion per column [fx_idx - 1 + t]. *)
Lemma entry_sum_top_row fx_idx g s len i j :
  (1 <= fx_idx)%nat ->
  entry_sum (map (fun t => (0%nat, (fx_idx + t - 1)%nat, g t)) (seq s len)) i j =
  if andb (Nat.eqb i 0)
       (andb (fx_idx + s - 1 <=? j)%nat (j <? fx_idx + s + len - 1)%nat)
  then g (j + 1 - fx_idx)%nat else 0.
Proof.
  intros H1. destruct (Nat.eqb_spec i 0) as [->|Hi]; simpl.
  - revert s; induction len as [|len IH]; intros s; simpl.
    + destruct (Nat.leb_spec (fx_idx + s - 1) j), (Nat.ltb_spec j (fx_idx + s + 0 - 1));
        try lia; reflexivity.
    + rewrite IH.
      destruct (Nat.eqb_spec (fx_idx + s - 1) j) as [E|E].
      * subst j. rewrite Nat.leb_refl.
        replace (fx_idx + S s - 1 <=? fx_idx + s - 1)%nat with false
          by (symmetry; apply Nat.leb_gt; lia).
        replace (fx_idx + s - 1 <? fx_idx + s + S len - 1)%nat with true
          by (symmetry; apply Nat.ltb_lt; lia).
        simpl. replace (fx_idx + s - 1 + 1 - fx_idx)%nat with s by lia. ring.
      * destruct (Nat.leb_spec (fx_idx + S s - 1) j), (Nat.leb_spec (fx_idx + s - 1) j),
          (Nat.ltb_spec j (fx_idx + S s + len - 1)), (Nat.ltb_spec j (fx_idx + s + S len - 1));
          simpl; try lia; reflexivity.
  - clear H1. revert s; induction len as [|len IH]; intros s; simpl; [reflexivity|].
    rewrite IH. destruct i; [lia|]. reflexivity.
Qed.

(** The sub-diagonal: one insertion per row [t], at column [t - 1]. *)
Lemma entry_sum_sub_diag (v : vec) s len i j :
  entry_sum (map (fun t => (t, (t - 1)%nat, at_ v t)) (seq s len)) i j =
  if andb (andb (s <=? i)%nat (i <? s + len)%nat) (Nat.eqb j (i - 1)) then at_ v i else 0.
Proof.
  revert s; induction len as [|len IH]; intros s; simpl.
  - destruct (Nat.leb_spec s i), (Nat.ltb_spec i (s + 0)); simpl; try lia; reflexivity.
  - rewrite IH.
    destruct (Nat.eqb_spec s i) as [->|Hne].
    + rewrite Nat.leb_refl.
      replace (S i <=? i)%nat with false by (symmetry; apply Nat.leb_gt; lia).
      replace (i <? i + S len)%nat with true by (symmetry; apply Nat.ltb_lt; lia).
      simpl. rewrite Nat.eqb_sym. destruct (Nat.eqb j (i - 1)); ring.
    + destruct (Nat.leb_spec (S s) i), (Nat.leb_spec s i),
        (Nat.ltb_spec i (S s + len)), (Nat.ltb_spec i (s + S len)); simpl; try lia;
        reflexivity.
Qed.

Lemma entry_sum_single a b v i j :
  entry_sum [(a, b, v)] i j = if andb (Nat.eqb a i) (Nat.eqb b j) then v else 0.
Proof. simpl. destruct (andb _ _); ring. Qed.

Lemma at_assign_segment_after v s xs i :
  (s + length xs <= length v)%nat -> (s + length xs <= i)%nat ->
  at_ (assign_segment v s xs) i = at_ v i.
Proof.
  intros H Hi; unfold at_, assign_segment.
  rewrite app_nth2 by (rewrite length_firstn; lia).
  rewrite app_nth2 by (rewrite length_firstn; lia).
  rewrite nth_skipn, length_firstn. f_equal. lia.
Qed.

Lemma at_add_block v s xs i :
  (s + length xs <= length v)%nat ->
  at_ (add_block v s xs) i =
  if andb (s <=? i)%nat (i <? s + length xs)%nat then at_ v i + at_ xs (i - s)
  else at_ v i.
Proof.
  intros H. unfold add_block.
  assert (L : length (vadd (segment v s (length xs)) xs) = length xs)
    by (rewrite length_vadd, length_segment; lia).
  destruct (Nat.leb_spec s i), (Nat.ltb_spec i (s + length xs)); simpl.
  - replace i with (s + (i - s))%nat at 1 by lia.
    rewrite at_assign_segment_in by (rewrite L; lia).
    rewrite at_vadd by (rewrite ?length_segment; lia).
    rewrite at_segment by lia. do 2 f_equal. lia.
  - apply at_assign_segment_after; rewrite L; lia.
  - apply at_assign_segment_before; lia.
  - apply at_assign_segment_before; lia.
Qed.

(** Lines 19-23: entry [t] of [fert_leslie]. *)
Lemma at_fert_leslie_of sx fx fx_idx fert_k t :
  (fx_idx + length fx <= length sx)%nat -> (t <= length fx)%nat ->
  at_ (fert_leslie_of sx fx fx_idx fert_k) t =
  fert_k * ((if (t <? length fx)%nat then at_ fx t * at_ sx (fx_idx + t) else 0) +
            (if (0 <? t)%nat then at_ fx (t - 1) else 0)).
Proof.
  intros H Ht. unfold fert_leslie_of.
  assert (L1 : length (vmul fx (segment sx fx_idx (length fx))) = length fx)
    by (rewrite length_vmul, length_segment; lia).
  assert (L2 : length (add_block (repeat 0 (S (length fx))) 0
                          (vmul fx (segment sx fx_idx (length fx)))) = S (length fx)).
  { unfold add_block. rewrite length_assign_segment, repeat_length; [reflexivity|].
    rewrite length_vadd, length_segment by (rewrite L1, repeat_length; lia).
    rewrite L1, repeat_length; lia. }
  assert (L3 : length (add_block (add_block (repeat 0 (S (length fx))) 0
                          (vmul fx (segment sx fx_idx (length fx)))) 1 fx) = S (length fx)).
  { unfold add_block at 1. rewrite length_assign_segment, L2; [reflexivity|].
    rewrite length_vadd, length_segment by (rewrite L2; lia). rewrite L2; lia. }
  rewrite at_map by (rewrite L3; lia).
  rewrite at_add_block by (rewrite L2; lia).
  rewrite at_add_block by (rewrite L1, repeat_length; lia).
  rewrite L1.
  assert (R : forall i, at_ (repeat 0 (S (length fx))) i = 0).
  { intros i. unfold at_. destruct (Nat.lt_ge_cases i (S (length fx))).
    - apply nth_repeat_lt; auto.
    - apply nth_overflow. rewrite repeat_length. lia. }
  rewrite !R.
  destruct (Nat.ltb_spec t (length fx)), (Nat.ltb_spec 0 t),
    (Nat.leb_spec 1 t), (Nat.ltb_spec t (1 + length fx)); simpl; try lia.
  all: rewrite ?Nat.sub_0_r.
  all: destruct (Nat.ltb_spec t (length fx)); try lia.
  all: try (rewrite at_vmul, at_segment by (rewrite ?length_segment; lia)).
  all: ring.
Qed.

Lemma make_leslie_matrix_unfold sx fx srb age_span fx_idx :
  1 + srb <> 0 ->
  make_leslie_matrix sx fx srb age_span fx_idx =
  Some (mkSp (length sx - 1) (length sx - 1)
             (leslie_entries sx fx fx_idx (fert_k_of sx srb age_span))).
Proof.
  intros H. unfold make_leslie_matrix. rewrite divM_nonzero by exact H. reflexivity.
Qed.

(** Entry [(i, j)] of the Leslie matrix: fertility row, sub-diagonal and
    open-age entry. *)
Lemma entry_sum_leslie sx fx fx_idx fk i j :
  (1 <= fx_idx)%nat ->
  entry_sum (leslie_entries sx fx fx_idx fk) i j =
  (if andb (Nat.eqb i 0)
        (andb (fx_idx + 0 - 1 <=? j)%nat (j <? fx_idx + 0 + S (length fx) - 1)%nat)
   then at_ (fert_leslie_of sx fx fx_idx fk) (j + 1 - fx_idx) else 0) +
  ((if andb (andb (1 <=? i)%nat (i <? 1 + (length sx - 1 - 1))%nat) (Nat.eqb j (i - 1))
    then at_ sx i else 0) +
   (if andb (Nat.eqb (length sx - 1 - 1) i) (Nat.eqb (length sx - 1 - 1) j)
    then at_ sx (length sx - 1) else 0)).
Proof.
  intros H1. unfold leslie_entries.
  rewrite !entry_sum_app, entry_sum_top_row, entry_sum_sub_diag, entry_sum_single
    by exact H1.
  reflexivity.
Qed.

Lemma filter_at_most_two (p : nat -> bool) l a b :
  NoDup l -> (forall x, In x l -> p x = true -> x = a \/ x = b) ->
  (length (filter p l) <= 2)%nat.
Proof.
  intros Hnd H.
  apply NoDup_incl_length with (l' := [a; b]); [apply NoDup_filter; exact Hnd|].
  intros x Hx. apply filter_In in Hx as [Hin Hp].
  destruct (H x Hin Hp) as [->| ->]; simpl; auto.
Qed.

(** C3: structure of the Leslie matrix.  For [sx] of length [n_ages+1],
    [fx] of length [n_fx], [srb <> -1], [1 <= fx_idx] and
    [fx_idx + n_fx - 1 <= n_ages - 1] (as integers: [fx_idx + n_fx <= n_ages]),
    the matrix is [n_ages x n_ages]; [(i, i-1)] holds [sx[i]] for
    [i = 1..n_ages-1]; [(n_ages-1, n_ages-1)] holds [sx[n_ages]]; any other
    non-zero entry is in row 0, at a column in [fx_idx-1 .. fx_idx+n_fx-1],
    and is a multiple of [fert_k]; every column has at most 2 non-zero
    entries. *)
Theorem leslie_matrix_structure sx fx srb age_span fx_idx n_ages n_fx :
  length sx = S n_ages -> length fx = n_fx ->
  (1 <= fx_idx)%nat -> (fx_idx + n_fx <= n_ages)%nat -> srb <> Qcopp 1 ->
  let fert_k := at_ sx 0 * half * age_span / (1 + srb) in
  exists L, make_leslie_matrix sx fx srb age_span fx_idx = Some L /\
    sp_rows L = n_ages /\ sp_cols L = n_ages /\
    (forall r c v, In (r, c, v) (sp_entries L) -> (r < n_ages)%nat /\ (c < n_ages)%nat) /\
    (forall i, (1 <= i <= n_ages - 1)%nat -> coeff L i (i - 1) = at_ sx i) /\
    coeff L (n_ages - 1) (n_ages - 1) = at_ sx n_ages /\
    (forall i j, (i < n_ages)%nat -> (j < n_ages)%nat ->
       ~ ((1 <= i)%nat /\ j = (i - 1)%nat) -> ~ (i = (n_ages - 1)%nat /\ j = (n_ages - 1)%nat) ->
       (i = 0%nat /\ (fx_idx - 1 <= j <= fx_idx + n_fx - 1)%nat /\
        exists c, coeff L i j = fert_k * c) \/ coeff L i j = 0) /\
    (forall j, (j < n_ages)%nat -> (col_nnz L j <= 2)%nat).
Proof.
  intros Hsx Hfx H1 Hwin Hsrb fert_k.
  exists (mkSp (length sx - 1) (length sx - 1)
            (leslie_entries sx fx fx_idx (fert_k_of sx srb age_span))).
  rewrite make_leslie_matrix_unfold by (apply srb_denominator; exact Hsrb).
  unfold coeff, col_nnz. cbn [sp_rows sp_cols sp_entries].
  replace (length sx - 1)%nat with n_ages by lia.
  assert (Hfl : forall t, (t <= n_fx)%nat ->
            at_ (fert_leslie_of sx fx fx_idx (fert_k_of sx srb age_span)) t =
            fert_k * ((if (t <? n_fx)%nat then at_ fx t * at_ sx (fx_idx + t) else 0) +
                      (if (0 <? t)%nat then at_ fx (t - 1) else 0))).
  { intros t Ht. rewrite at_fert_leslie_of by lia. rewrite Hfx. reflexivity. }
  split; [reflexivity|]. split; [reflexivity|]. split; [reflexivity|].
  split.
  { intros r c v Hin. unfold leslie_entries in Hin. rewrite Hsx, Hfx in Hin.
    replace (S n_ages - 1)%nat with n_ages in Hin by lia.
    apply in_app_iff in Hin as [Hin|Hin]; [|apply in_app_iff in Hin as [Hin|Hin]].
    - apply in_map_iff in Hin as (t & E & Ht). apply in_seq in Ht. inversion E; lia.
    - apply in_map_iff in Hin as (t & E & Ht). apply in_seq in Ht. inversion E; lia.
    - destruct Hin as [E|[]]. inversion E; lia. }
  split.
  { intros i Hi. rewrite entry_sum_leslie by exact H1.
    rewrite Hsx, Hfx; replace (S n_ages - 1)%nat with n_ages by lia.
    destruct (Nat.eqb_spec i 0); [lia|].
    destruct (Nat.leb_spec 1 i), (Nat.ltb_spec i (1 + (n_ages - 1))); try lia.
    rewrite Nat.eqb_refl. simpl.
    destruct (Nat.eqb_spec (n_ages - 1) i), (Nat.eqb_spec (n_ages - 1) (i - 1)); try lia;
      simpl; ring. }
  split.
  { rewrite entry_sum_leslie by exact H1.
    rewrite Hsx, Hfx; replace (S n_ages - 1)%nat with n_ages by lia.
    destruct (Nat.eqb_spec (n_ages - 1) 0) as [E|E].
    - (* one age group: the fertility slot (0, 0) carries [fert_k * 0] *)
      assert (n_ages = 1)%nat by lia. assert (fx_idx = 1)%nat by lia.
      assert (Hz : n_fx = 0%nat) by lia. subst n_ages fx_idx.
      cbn [Nat.sub Nat.add Nat.eqb Nat.leb Nat.ltb andb].
      rewrite Hfl by lia. rewrite Hz. cbn [Nat.ltb Nat.leb]. ring.
    - destruct (Nat.leb_spec 1 (n_ages - 1)),
        (Nat.ltb_spec (n_ages - 1) (1 + (n_ages - 1 - 1))); try lia.
      rewrite Nat.eqb_refl.
      destruct (Nat.eqb_spec (n_ages - 1) (n_ages - 1 - 1)); [lia|].
      destruct (Nat.eqb_spec (n_ages - 1) 0); [lia|].
      rewrite !andb_false_r. simpl. ring. }
  split.
  { intros i j Hi Hj Hsub Hopen. rewrite entry_sum_leslie by exact H1.
    rewrite Hsx, Hfx; replace (S n_ages - 1)%nat with n_ages by lia.
    assert (Es : (if andb (andb (1 <=? i)%nat (i <? 1 + (n_ages - 1))%nat) (Nat.eqb j (i - 1))
                  then at_ sx i else 0) = 0).
    { destruct (Nat.leb_spec 1 i), (Nat.eqb_spec j (i - 1)); simpl;
        rewrite ?andb_false_r; try reflexivity.
      exfalso; apply Hsub; auto. }
    assert (Eo : (if andb (Nat.eqb (n_ages - 1) i) (Nat.eqb (n_ages - 1) j)
                  then at_ sx n_ages else 0) = 0).
    { destruct (Nat.eqb_spec (n_ages - 1) i), (Nat.eqb_spec (n_ages - 1) j); simpl;
        try reflexivity.
      exfalso; apply Hopen; auto. }
    rewrite Es, Eo.
    destruct (Nat.eqb_spec i 0), (Nat.leb_spec (fx_idx + 0 - 1) j),
      (Nat.ltb_spec j (fx_idx + 0 + S n_fx - 1)); simpl; try (right; ring).
    left. split; [auto|]. split; [lia|]. rewrite Hfl by lia.
    match goal with |- exists c, fert_k * ?e + _ = _ => exists e end. ring. }
  { intros j Hj.
    apply (filter_at_most_two _ _ 0%nat (if Nat.eqb j (n_ages - 1) then (n_ages - 1)%nat else S j));
      [apply seq_NoDup|].
    intros i Hin Hnz. apply in_seq in Hin.
    destruct (Qc_eq_dec _ 0) as [_|Hne]; [discriminate|]. clear Hnz.
    unfold coeff in Hne. cbn [sp_entries] in Hne.
    rewrite entry_sum_leslie, Hsx, Hfx in Hne by exact H1.
    replace (S n_ages - 1)%nat with n_ages in Hne by lia.
    destruct (Nat.eqb_spec i 0) as [|Hi0]; [left; assumption|right].
    cbn [andb] in Hne.
    destruct (andb (andb (1 <=? i)%nat (i <? 1 + (n_ages - 1))%nat) (Nat.eqb j (i - 1)))
      eqn:Es;
    destruct (andb (Nat.eqb (n_ages - 1) i) (Nat.eqb (n_ages - 1) j)) eqn:Eo.
    - rewrite !andb_true_iff, Nat.leb_le, Nat.ltb_lt, !Nat.eqb_eq in Es.
      destruct (Nat.eqb_spec j (n_ages - 1)); lia.
    - rewrite !andb_true_iff, Nat.leb_le, Nat.ltb_lt, !Nat.eqb_eq in Es.
      destruct (Nat.eqb_spec j (n_ages - 1)); lia.
    - rewrite !andb_true_iff, !Nat.eqb_eq in Eo.
      destruct (Nat.eqb_spec j (n_ages - 1)); lia.
    - exfalso; apply Hne; ring. }
Qed.

(** C10: exact form of the fertility top row.  For [n_ages >= 2] and the
    shape conditions of C3, for every [i] in [0..n_fx] the entry of the
    Leslie matrix at row 0, column [fx_idx - 1 + i] equals
    [fert_k * ((if i < n_fx then fx[i] * sx[fx_idx+i] else 0) +
               (if i > 0 then fx[i-1] else 0))]: the first term carries the
    survivorship [sx[fx_idx+i]], the second uses [fx[i-1]] alone. *)
Theorem fertility_row_form sx fx srb age_span fx_idx n_ages n_fx :
  length sx = S n_ages -> length fx = n_fx ->
  (1 <= fx_idx)%nat -> (fx_idx + n_fx <= n_ages)%nat -> (2 <= n_ages)%nat ->
  srb <> Qcopp 1 ->
  let fert_k := at_ sx 0 * half * age_span / (1 + srb) in
  exists L, make_leslie_matrix sx fx srb age_span fx_idx = Some L /\
    forall i, (i <= n_fx)%nat ->
      coeff L 0 (fx_idx - 1 + i) =
      fert_k * ((if (i <? n_fx)%nat then at_ fx i * at_ sx (fx_idx + i) else 0) +
                (if (0 <? i)%nat then at_ fx (i - 1) else 0)).
Proof.
  intros Hsx Hfx H1 Hwin H2 Hsrb fert_k.
  eexists. split.
  { rewrite make_leslie_matrix_unfold by (apply srb_denominator; exact Hsrb).
    reflexivity. }
  intros i Hi. unfold coeff. cbn [sp_entries].
  rewrite entry_sum_leslie by exact H1. rewrite Hsx, Hfx.
  replace (S n_ages - 1)%nat with n_ages by lia.
  rewrite Nat.eqb_refl.
  destruct (Nat.leb_spec (fx_idx + 0 - 1) (fx_idx - 1 + i)); [|lia].
  destruct (Nat.ltb_spec (fx_idx - 1 + i) (fx_idx + 0 + S n_fx - 1)); [|lia].
  destruct (Nat.eqb_spec (n_ages - 1) 0); [lia|].
  replace (fx_idx - 1 + i + 1 - fx_idx)%nat with i by lia.
  rewrite at_fert_leslie_of by lia. rewrite Hfx.
  cbn [andb Nat.leb]. unfold fert_k, fert_k_of. ring.
Qed.

(** * The two drivers *)

(** C1 (divergence): the fertile window ends at the open age group
    ([fx_idx + n_fx - 1 = n_ages - 1]).  With [basepop = [0; 100]],
    [sx = [1; 1; 1]], [fx = [1]], [gx = [0; 0]], [srb = 0], [age_span = 1]
    and [fx_idx = 1], after one step the direct recurrence of [ccmpp] has
    a total population of 200 and the matrix form of [ccmpp_leslie] 150:
    the second births term of [step_projection] counts the open group's
    own survivors, the Leslie top row does not. *)
Theorem projection_paths_diverge :
  ccmpp_input_ok [0; qc 100] [[1; 1; 1]] [[1]] [[0; 0]] 1 /\
  exists r m,
    ccmpp [0; qc 100] [[1; 1; 1]] [[1]] [[0; 0]] [0] 1 1 = Some r /\
    ccmpp_leslie [0; qc 100] [[1; 1; 1]] [[1]] [[0; 0]] [0] 1 1 = Some m /\
    vsum (col (population r) 1) = qc 200 /\
    vsum (col m 1) = qc 150.
Proof.
  split.
  { unfold ccmpp_input_ok. cbn. split; [lia|]. split; [lia|].
    intros k Hk. destruct k as [|k]; [cbn; lia | lia]. }
  do 2 eexists. split; [reflexivity|]. split; [reflexivity|].
  split; apply Qc_is_canon; vm_compute; reflexivity.
Qed.

(** * Instances of the claims on concrete inputs *)

Ltac ex_step_wf := unfold step_wf; vm_compute; repeat split; lia.

Lemma open_age_group_accumulates_witness :
  exists st', step_projection ex_projection 0 = Some st' /\
  let n := n_ages ex_projection in
  let m := col (migrations st') 0 in
  let d := col (deaths st') 0 in
  let w a := at_ (col (population ex_projection) 0) a + half * at_ m a in
  at_ (col (population st') 1) (n - 1) =
  (w (n - 2)%nat - at_ d (n - 1)) + (w (n - 1)%nat - at_ d n) + half * at_ m (n - 1).
Proof.
  eexists. split; [reflexivity|].
  apply (open_age_group_accumulates ex_projection 0).
  - ex_step_wf.
  - vm_compute. lia.
  - reflexivity.
Defined.

Lemma infant_accounting_witness :
  exists st', step_projection ex_projection 0 = Some st' /\
    let inf := at_ (infants st') 0 in
    let d0 := at_ (col (deaths st') 0) 0 in
    let s0 := at_ (col (sx ex_projection) 0) 0 in
    inf = vsum (col (births st') 0) / (1 + at_ (srb ex_projection) 0) /\
    d0 = inf * (1 - s0) /\
    at_ (col (population st') 1) 0 =
      (inf - d0) + half * at_ (col (migrations st') 0) 0 /\
    inf - d0 = inf * s0.
Proof.
  apply (infant_accounting ex_projection 0).
  - ex_step_wf.
  - vm_compute. discriminate.
Defined.

Lemma closed_population_conservation_witness :
  exists st', step_projection ex_projection 0 = Some st' /\
  vsum (col (population st') 1) + vsum (col (deaths st') 0) =
  vsum (col (population st') 0) + at_ (infants st') 0.
Proof.
  eexists. split; [reflexivity|].
  apply (closed_population_conservation ex_projection 0).
  - ex_step_wf.
  - vm_compute. lia.
  - intros a Ha. vm_compute in Ha.
    destruct a as [|[|[|a]]]; [reflexivity | reflexivity | reflexivity | lia].
  - reflexivity.
Defined.

Lemma step_projection_frame_witness :
  exists st', step_projection ex_projection 0 = Some st' /\
  (n_ages st' = n_ages ex_projection /\ n_steps st' = n_steps ex_projection /\
   n_fx st' = n_fx ex_projection /\ fx_idx st' = fx_idx ex_projection /\
   age_span st' = age_span ex_projection /\
   sx st' = sx ex_projection /\ fx st' = fx ex_projection /\
   gx st' = gx ex_projection /\ srb st' = srb ex_projection /\
   (forall j, j <> 1%nat -> col (population st') j = col (population ex_projection) j) /\
   (forall j, j <> 0%nat ->
      col (deaths st') j = col (deaths ex_projection) j /\
      col (births st') j = col (births ex_projection) j /\
      at_ (infants st') j = at_ (infants ex_projection) j /\
      col (migrations st') j = col (migrations ex_projection) j)) /\
  (forall st2,
     step_wf ex_projection 0 -> step_wf st2 0 ->
     n_ages st2 = n_ages ex_projection -> n_fx st2 = n_fx ex_projection ->
     fx_idx st2 = fx_idx ex_projection -> age_span st2 = age_span ex_projection ->
     col (population st2) 0 = col (population ex_projection) 0 ->
     col (sx st2) 0 = col (sx ex_projection) 0 ->
     col (fx st2) 0 = col (fx ex_projection) 0 ->
     col (gx st2) 0 = col (gx ex_projection) 0 ->
     at_ (srb st2) 0 = at_ (srb ex_projection) 0 ->
     option_map (fun s => outputs_at s 0) (step_projection st2 0) =
     Some (outputs_at st' 0)).
Proof.
  eexists. split; [reflexivity|].
  apply (step_projection_frame ex_projection 0). reflexivity.
Defined.

Lemma no_division_by_zero_witness :
  (exists r, ccmpp ex_basepop ex_sx ex_fx ex_gx ex_srb 1 1 = Some r) /\
  (exists m, ccmpp_leslie ex_basepop ex_sx ex_fx ex_gx ex_srb 1 1 = Some m).
Proof.
  apply (proj2 (proj2 no_division_by_zero)).
  intros k Hk. destruct k as [|k]; [vm_compute; reflexivity | vm_compute in Hk; lia].
Defined.

Lemma zero_fertility_stability_witness :
  exists r, ccmpp ex_basepop ex_sx [[0]] ex_gx ex_srb 1 1 = Some r /\
  forall k, (k < length ex_sx)%nat ->
    Forall (fun x => x = 0) (col (births r) k) /\
    at_ (infants r) k = 0 /\
    at_ (col (deaths r) k) 0 = 0 /\
    at_ (col (population r) (S k)) 0 = half * at_ (col (migrations r) k) 0.
Proof.
  apply (zero_fertility_stability ex_basepop ex_sx [[0]] ex_gx ex_srb 1 1).
  - unfold ccmpp_input_ok. vm_compute. split; [lia|]. split; [lia|].
    intros k Hk. destruct k as [|k]; [repeat split; lia | lia].
  - intros k Hk. destruct k as [|k]; [vm_compute; reflexivity | vm_compute in Hk; lia].
  - repeat constructor.
Defined.

Lemma leslie_matrix_structure_witness :
  let fert_k := at_ (col ex_sx 0) 0 * half * 1 / (1 + 0) in
  exists L, make_leslie_matrix (col ex_sx 0) (col ex_fx 0) 0 1 1 = Some L /\
    sp_rows L = 3%nat /\ sp_cols L = 3%nat /\
    (forall r c v, In (r, c, v) (sp_entries L) -> (r < 3)%nat /\ (c < 3)%nat) /\
    (forall i, (1 <= i <= 3 - 1)%nat -> coeff L i (i - 1) = at_ (col ex_sx 0) i) /\
    coeff L (3 - 1) (3 - 1) = at_ (col ex_sx 0) 3 /\
    (forall i j, (i < 3)%nat -> (j < 3)%nat ->
       ~ ((1 <= i)%nat /\ j = (i - 1)%nat) -> ~ (i = (3 - 1)%nat /\ j = (3 - 1)%nat) ->
       (i = 0%nat /\ (1 - 1 <= j <= 1 + 1 - 1)%nat /\
        exists c, coeff L i j = fert_k * c) \/ coeff L i j = 0) /\
    (forall j, (j < 3)%nat -> (col_nnz L j <= 2)%nat).
Proof.
  apply (leslie_matrix_structure (col ex_sx 0) (col ex_fx 0) 0 1 1 3 1).
  - reflexivity.
  - reflexivity.
  - lia.
  - lia.
  - vm_compute. discriminate.
Defined.

Lemma fertility_row_form_witness :
  let fert_k := at_ (col ex_sx 0) 0 * half * 1 / (1 + 0) in
  exists L, make_leslie_matrix (col ex_sx 0) (col ex_fx 0) 0 1 1 = Some L /\
    forall i, (i <= 1)%nat ->
      coeff L 0 (1 - 1 + i) =
      fert_k * ((if (i <? 1)%nat then at_ (col ex_fx 0) i * at_ (col ex_sx 0) (1 + i) else 0) +
                (if (0 <? i)%nat then at_ (col ex_fx 0) (i - 1) else 0)).
Proof.
  apply (fertility_row_form (col ex_sx 0) (col ex_fx 0) 0 1 1 3 1).
  - reflexivity.
  - reflexivity.
  - lia.
  - lia.
  - lia.
  - vm_compute. discriminate.
Defined.

(** * One step in survival form *)

Section StepForms.

Variable st : PopulationProjection.
Variable k : nat.
Hypothesis Hwf : step_wf st k.

(** The aged population before the infants are written: age [a >= 1]
    holds the survivors [w[a-1] * sx[a]] of the group below, the open
    group also its own survivors [w[n-1] * sx[n]]. *)
Lemma at_aged_at_survival a : (a < n_ages st)%nat ->
  at_ (aged_at st k) a =
  match a with
  | O => at_ (work_at st k) 0
  | S b => at_ (work_at st k) b * at_ (col (sx st) k) a
  end +
  (if Nat.eqb a (n_ages st - 1)
   then at_ (work_at st k) (n_ages st - 1) * at_ (col (sx st) k) (n_ages st) else 0).
Proof.
  intros Ha. pose proof (length_work_at st k Hwf) as Wl.
  pose proof (at_deaths1_at st k Hwf) as D.
  unfold aged_at.
  destruct (Nat.eqb_spec a (n_ages st - 1)) as [Ea|Ea].
  - subst a. rewrite at_upd_same by (rewrite length_aging_loop; lia).
    rewrite at_aging_loop by lia.
    destruct (n_ages st) as [|[|m]]; [lia| |].
    + cbn [Nat.sub Nat.leb andb]. rewrite (D 0%nat) by lia. ring.
    + replace (S (S m) - 1)%nat with (S m) in * by lia.
      destruct (Nat.leb_spec 1 (S m)), (Nat.leb_spec (S m) (S m)); try lia. cbn [andb].
      replace (S m - 1)%nat with m by lia.
      rewrite (D m), (D (S m)) by lia. ring.
  - rewrite at_upd_other by lia. rewrite at_aging_loop by lia.
    destruct a as [|b].
    + cbn [andb Nat.leb]. ring.
    + destruct (Nat.leb_spec 1 (S b)), (Nat.leb_spec (S b) (n_ages st - 1)); try lia.
      cbn [andb]. replace (S b - 1)%nat with b by lia.
      rewrite (D b) by lia. ring.
Qed.

Lemma length_births_at : length (births_at st k) = n_fx st.
Proof.
  pose proof (length_work_at st k Hwf) as Wl. pose proof (length_aged_at st k Hwf) as Al.
  pose proof Hwf as W. unpack_wf W. unfold births_at.
  rewrite length_vadd, !length_vmul, !length_vscale, !length_segment by lia. lia.
Qed.

Lemma at_births_at t : (t < n_fx st)%nat ->
  at_ (births_at st k) t =
  half * age_span st * at_ (col (fx st) k) t * at_ (work_at st k) (fx_idx st + t) +
  half * age_span st * at_ (col (fx st) k) t * at_ (aged_at st k) (fx_idx st + t).
Proof.
  intros Ht. pose proof (length_work_at st k Hwf) as Wl.
  pose proof (length_aged_at st k Hwf) as Al. pose proof Hwf as W. unpack_wf W.
  unfold births_at.
  rewrite at_vadd by (rewrite length_vmul, length_vscale, length_segment; lia).
  rewrite !at_vmul by (rewrite ?length_vscale, ?length_segment; lia).
  rewrite !at_vscale, !at_segment by lia. reflexivity.
Qed.

End StepForms.

(** * Signs *)

Lemma qc_le_mult a b : 0 <= a -> 0 <= b -> 0 <= a * b.
Proof.
  intros Ha Hb. pose proof (Qcmult_le_compat_r 0 a b Ha Hb) as H.
  rewrite Qcmult_0_l in H. exact H.
Qed.

Lemma qc_le_plus a b : 0 <= a -> 0 <= b -> 0 <= a + b.
Proof.
  intros Ha Hb. pose proof (Qcplus_le_compat 0 a 0 b Ha Hb) as H.
  rewrite Qcplus_0_l in H. exact H.
Qed.

Lemma qc_half_nonneg : 0 <= half.
Proof. apply Qcle_alt. vm_compute. discriminate. Qed.

Lemma qc_le_div a b : 0 <= a -> 0 < b -> 0 <= a / b.
Proof.
  intros Ha Hb. unfold Qcdiv. apply qc_le_mult; [exact Ha|].
  destruct (Qclt_le_dec (/ b) 0) as [Hlt|Hle]; [exfalso|exact Hle].
  pose proof (Qcmult_lt_compat_r (/ b) 0 b Hb Hlt) as H.
  rewrite Qcmult_inv_l, Qcmult_0_l in H by (apply not_eq_sym, Qclt_not_eq, Hb).
  apply (Qclt_not_le _ _ H). apply Qcle_alt. vm_compute. discriminate.
Qed.

Lemma qc_one_minus s : s <= 1 -> 0 <= 1 - s.
Proof. intros H. apply Qcle_minus_iff in H. exact H. Qed.

Lemma qc_srb_pos s : Qcopp 1 < s -> 0 < 1 + s.
Proof.
  intros H. apply Qclt_minus_iff in H.
  replace (1 + s) with (s + - Qcopp 1) by ring. exact H.
Qed.

Lemma sumf_nonneg n f : (forall i, (i < n)%nat -> 0 <= f i) -> 0 <= sumf n f.
Proof.
  induction n as [|n IH]; intros H; simpl.
  - apply Qcle_refl.
  - apply qc_le_plus; [apply IH; intros; apply H; lia | apply H; lia].
Qed.

(** The step in survival form.  With [p] the population column [k],
    [m[a] = p[a] * gx[a]] the migrations and [w = p + 0.5 * m] the
    population after the first migration half-step, the step stores the
    migrations [m], the deaths [w[a-1] * (1 - sx[a])] of ages [1..n_ages],
    and for ages [a = 1..n_ages-1] the survivors [w[a-1] * sx[a]] of the
    group below (the open group also keeps [w[n_ages-1] * sx[n_ages]]) plus
    the second migration half-step. *)
Theorem step_survival_form st k st' :
  step_wf st k -> step_projection st k = Some st' ->
  let n := n_ages st in
  let p := col (population st) k in
  let s := col (sx st) k in
  let m a := at_ p a * at_ (col (gx st) k) a in
  let w a := at_ p a + half * m a in
  (forall a, (a < n)%nat -> at_ (col (migrations st') k) a = m a) /\
  (forall a, (1 <= a <= n)%nat ->
     at_ (col (deaths st') k) a = w (a - 1)%nat * (1 - at_ s a)) /\
  (forall a, (1 <= a < n)%nat ->
     at_ (col (population st') (S k)) a =
     w (a - 1)%nat * at_ s a +
     (if Nat.eqb a (n - 1) then w (n - 1)%nat * at_ s n else 0) + half * m a).
Proof.
  intros Hwf Hs. apply step_projection_some in Hs as (inf & _ & _ & ->).
  cbv zeta.
  rewrite (store_migrations st k inf Hwf), (store_deaths st k inf Hwf),
    (store_population_next st k inf Hwf).
  split; [|split].
  - intros a Ha. apply at_mig_at; assumption.
  - intros a Ha. destruct a as [|b]; [lia|].
    rewrite at_deaths2_at_S, (at_deaths1_at st k Hwf b) by lia.
    rewrite (at_work_at st k Hwf b), (at_mig_at st k Hwf b) by lia.
    replace (S b - 1)%nat with b by lia. reflexivity.
  - intros a Ha.
    rewrite (at_pop_next_at_S st k Hwf) by lia.
    rewrite (at_aged_at_survival st k Hwf) by lia.
    destruct a as [|b]; [lia|]. replace (S b - 1)%nat with b by lia.
    rewrite (at_work_at st k Hwf b), (at_mig_at st k Hwf b), (at_mig_at st k Hwf (S b))
      by lia.
    destruct (Nat.eqb (S b) (n_ages st - 1)); [|ring].
    rewrite (at_work_at st k Hwf), (at_mig_at st k Hwf) by lia. ring.
Qed.

(** Births of the step: for each fertile age [t < n_fx], half of
    [age_span * fx[t]] applied to the group [fx_idx + t] after the first
    migration half-step ([w]), plus the same applied to that group after
    the aging shift, which is the stored new population minus its second
    migration half-step (for [fx_idx >= 1], since age 0 is overwritten by
    the infants). *)
Theorem step_births_form st k st' :
  step_wf st k -> (1 <= fx_idx st)%nat -> step_projection st k = Some st' ->
  let p := col (population st) k in
  let m a := at_ p a * at_ (col (gx st) k) a in
  let w a := at_ p a + half * m a in
  forall t, (t < n_fx st)%nat ->
    at_ (col (births st') k) t =
    half * age_span st * at_ (col (fx st) k) t *
    (w (fx_idx st + t)%nat +
     (at_ (col (population st') (S k)) (fx_idx st + t) - half * m (fx_idx st + t)%nat)).
Proof.
  intros Hwf H1 Hs. apply step_projection_some in Hs as (inf & _ & _ & ->).
  cbv zeta. intros t Ht. pose proof Hwf as W. unpack_wf W.
  rewrite (store_births st k inf Hwf), (store_population_next st k inf Hwf).
  rewrite (at_births_at st k Hwf t Ht), (at_pop_next_at_S st k Hwf) by lia.
  rewrite (at_work_at st k Hwf), (at_mig_at st k Hwf) by lia. ring.
Qed.

Lemma step_nonneg_core st k st' :
  step_wf st k ->
  (forall a, (a < n_ages st)%nat -> 0 <= at_ (col (population st) k) a) ->
  (forall a, (a <= n_ages st)%nat -> 0 <= at_ (col (sx st) k) a) ->
  (forall t, (t < n_fx st)%nat -> 0 <= at_ (col (fx st) k) t) ->
  (forall a, (a < n_ages st)%nat -> 0 <= at_ (col (gx st) k) a) ->
  0 <= age_span st -> Qcopp 1 < at_ (srb st) k ->
  step_projection st k = Some st' ->
  (forall a, (a < n_ages st)%nat -> 0 <= at_ (col (population st') (S k)) a) /\
  (forall t, (t < n_fx st)%nat -> 0 <= at_ (col (births st') k) t) /\
  0 <= at_ (infants st') k /\
  (forall a, (a < n_ages st)%nat -> 0 <= at_ (col (migrations st') k) a) /\
  ((forall a, (a <= n_ages st)%nat -> at_ (col (sx st) k) a <= 1) ->
   forall a, (a <= n_ages st)%nat -> 0 <= at_ (col (deaths st') k) a).
Proof.
  intros Hwf Hpop Hsx0 Hfx0 Hgx0 Has Hsrb Hs.
  apply step_projection_some in Hs as (inf & Hden & Hinf & ->).
  pose proof Hwf as W. unpack_wf W.
  assert (Hm : forall a, (a < n_ages st)%nat -> 0 <= at_ (mig_at st k) a).
  { intros a Ha. rewrite (at_mig_at st k Hwf) by exact Ha.
    apply qc_le_mult; auto using Hpop, Hgx0. }
  assert (Hw : forall a, (a < n_ages st)%nat -> 0 <= at_ (work_at st k) a).
  { intros a Ha. rewrite (at_work_at st k Hwf) by exact Ha.
    apply qc_le_plus; [auto using Hpop | apply qc_le_mult; [apply qc_half_nonneg | auto]]. }
  assert (Hag : forall a, (a < n_ages st)%nat -> 0 <= at_ (aged_at st k) a).
  { intros a Ha. rewrite (at_aged_at_survival st k Hwf) by exact Ha.
    apply qc_le_plus.
    - destruct a as [|b]; [apply Hw; lia | apply qc_le_mult; [apply Hw; lia | apply Hsx0; lia]].
    - destruct (Nat.eqb a (n_ages st - 1)); [|apply Qcle_refl].
      apply qc_le_mult; [apply Hw; lia | apply Hsx0; lia]. }
  assert (Hc : 0 <= half * age_span st) by (apply qc_le_mult; [apply qc_half_nonneg | exact Has]).
  assert (Hb : forall t, (t < n_fx st)%nat -> 0 <= at_ (births_at st k) t).
  { intros t Ht. rewrite (at_births_at st k Hwf t Ht).
    apply qc_le_plus; repeat apply qc_le_mult;
      first [apply qc_half_nonneg | exact Has | apply Hfx0; lia | apply Hw; lia
            | apply Hag; lia]. }
  assert (Hi : 0 <= inf).
  { rewrite Hinf. apply qc_le_div; [|apply qc_srb_pos, Hsrb].
    rewrite vsum_sumf, (length_births_at st k Hwf). apply sumf_nonneg. exact Hb. }
  rewrite (store_population_next st k inf Hwf), (store_births st k inf Hwf),
    (store_infants st k inf Hwf), (store_migrations st k inf Hwf),
    (store_deaths st k inf Hwf).
  split; [|split; [|split; [|split]]].
  - intros a Ha. destruct a as [|b].
    + rewrite (at_pop_next_at_0 st k Hwf).
      replace (inf - inf * (1 - at_ (col (sx st) k) 0)) with (inf * at_ (col (sx st) k) 0)
        by ring.
      apply qc_le_plus; apply qc_le_mult; auto; [apply Hsx0; lia | apply qc_half_nonneg].
    + rewrite (at_pop_next_at_S st k Hwf) by lia.
      apply qc_le_plus; [apply Hag; lia | apply qc_le_mult; [apply qc_half_nonneg | auto]].
  - exact Hb.
  - exact Hi.
  - exact Hm.
  - intros Hle a Ha. destruct a as [|b].
    + rewrite (at_deaths2_at_0 st k Hwf). apply qc_le_mult; [exact Hi|].
      apply qc_one_minus, Hle; lia.
    + rewrite at_deaths2_at_S, (at_deaths1_at st k Hwf b) by lia.
      apply qc_le_mult; [apply Hw; lia | apply qc_one_minus, Hle; lia].
Qed.

(** Signs.  If population column [k], [sx], [fx] and [gx] of the step are
    non-negative, [age_span >= 0] and [srb > -1], the step's new population,
    births, infants and migrations are non-negative; its deaths are too
    when moreover every [sx] entry is at most 1. *)
Theorem step_projection_nonneg st k st' :
  step_wf st k ->
  (forall a, (a < n_ages st)%nat -> 0 <= at_ (col (population st) k) a) ->
  (forall a, (a <= n_ages st)%nat -> 0 <= at_ (col (sx st) k) a) ->
  (forall t, (t < n_fx st)%nat -> 0 <= at_ (col (fx st) k) t) ->
  (forall a, (a < n_ages st)%nat -> 0 <= at_ (col (gx st) k) a) ->
  0 <= age_span st -> Qcopp 1 < at_ (srb st) k ->
  step_projection st k = Some st' ->
  (forall a, (a < n_ages st)%nat -> 0 <= at_ (col (population st') (S k)) a) /\
  (forall t, (t < n_fx st)%nat -> 0 <= at_ (col (births st') k) t) /\
  0 <= at_ (infants st') k /\
  (forall a, (a < n_ages st)%nat -> 0 <= at_ (col (migrations st') k) a) /\
  ((forall a, (a <= n_ages st)%nat -> at_ (col (sx st) k) a <= 1) ->
   forall a, (a <= n_ages st)%nat -> 0 <= at_ (col (deaths st') k) a).
Proof. exact (step_nonneg_core st k st'). Qed.

(** * Whole runs of [ccmpp], continued *)

Lemma step_balance st k inf :
  step_wf st k -> (2 <= n_ages st)%nat ->
  (forall a, (a < n_ages st)%nat -> at_ (col (gx st) k) a = 0) ->
  vsum (pop_next_at st k inf) + vsum (deaths2_at st k inf) =
  vsum (col (population st) k) + inf.
Proof.
  intros Hwf H2 Hg.
  pose proof Hwf as W. unpack_wf W.
  assert (Hm : forall a, (a < n_ages st)%nat -> at_ (mig_at st k) a = 0).
  { intros a Ha. rewrite at_mig_at, Hg by auto. ring. }
  assert (Hw : forall a, (a < n_ages st)%nat ->
                 at_ (work_at st k) a = at_ (col (population st) k) a).
  { intros a Ha. rewrite at_work_at, Hm by auto. ring. }
  rewrite !vsum_sumf, length_pop_next_at, length_deaths2_at, Hp by exact Hwf.
  destruct (n_ages st) as [|[|m]] eqn:En; try lia.
  rewrite (sumf_shift (S m) (at_ (pop_next_at st k inf))),
    (sumf_shift (S (S m)) (at_ (deaths2_at st k inf))).
  cbn [sumf].
  rewrite at_pop_next_at_0, Hm by (auto; lia).
  rewrite (at_pop_next_at_S st k Hwf inf (S m)), Hm by lia.
  replace (S m) with (n_ages st - 1)%nat at 1 by lia.
  rewrite at_aged_at_last by (auto; lia).
  rewrite En. replace (S (S m) - 2)%nat with m by lia.
  replace (S (S m) - 1)%nat with (S m) by lia.
  rewrite (sumf_ext m (fun i => at_ (pop_next_at st k inf) (S i))
             (fun i => at_ (col (population st) k) i - at_ (deaths1_at st k) (S i))).
  2:{ intros i Hi. rewrite at_pop_next_at_S, Hm by (auto; lia).
      rewrite at_aged_at_mid by (auto; lia).
      replace (S i - 1)%nat with i by lia. rewrite Hw by lia. ring. }
  rewrite sumf_minus, !Hw by lia.
  rewrite (sumf_ext m (fun i => at_ (deaths2_at st k inf) (S i))
             (fun i => at_ (deaths1_at st k) (S i)))
    by (intros; apply at_deaths2_at_S).
  rewrite !at_deaths2_at_S, at_deaths2_at_0 by exact Hwf.
  ring.
Qed.

Lemma run_steps_population_frame fuel : forall k st r,
  run_steps k fuel st = Some r ->
  forall j, (j <= k)%nat -> col (population r) j = col (population st) j.
Proof.
  induction fuel as [|fuel IH]; intros k st r H j Hj; cbn [run_steps] in H.
  - inversion H; subst. reflexivity.
  - unfold bind in H. destruct (step_projection st k) as [st'|] eqn:E; [|discriminate].
    rewrite (IH (S k) st' r H j) by lia.
    apply step_projection_some in E as (inf & _ & _ & ->).
    apply col_set_col_other. lia.
Qed.


(** Like [run_steps_outputs_prop], with population column [j] (the input
    of step [j]) also available. *)
Lemma run_steps_outputs_prop2 (Q : nat -> vec -> vec * vec * vec * Qc * vec -> Prop) st0 :
  (forall st j st', proj_wf st -> params st = params st0 -> (j < n_steps st0)%nat ->
     step_projection st j = Some st' -> Q j (col (population st') j) (outputs_at st' j)) ->
  forall fuel k st r, proj_wf st -> params st = params st0 ->
  (k + fuel <= n_steps st0)%nat -> run_steps k fuel st = Some r ->
  forall j, (k <= j < k + fuel)%nat -> Q j (col (population r) j) (outputs_at r j).
Proof.
  intros HQ fuel. induction fuel as [|fuel IH];
    intros k st r Hwf Hpar Hfuel Hrun j Hj; [lia|].
  cbn [run_steps] in Hrun. unfold bind in Hrun.
  destruct (step_projection st k) as [st'|] eqn:E; [|discriminate].
  pose proof (HQ st k st' Hwf Hpar ltac:(lia) E) as Hk.
  apply step_projection_some in E as (inf & _ & _ & Est').
  assert (Hns : n_steps st = n_steps st0) by (unfold params in Hpar; congruence).
  assert (Hwf' : proj_wf st') by (subst st'; apply proj_wf_store; [exact Hwf | lia]).
  assert (Hpar' : params st' = params st0) by (subst st'; exact Hpar).
  destruct (Nat.eq_dec j k) as [->|Hjk].
  - destruct (run_steps_frame fuel (S k) st' r Hrun) as [_ Ho].
    rewrite Ho by lia. rewrite (run_steps_population_frame fuel (S k) st' r Hrun k) by lia.
    exact Hk.
  - apply (IH (S k) st' r Hwf' Hpar'); [lia | exact Hrun | lia].
Qed.

Lemma sumf_telescope n (P D I : nat -> Qc) :
  (forall j, (j < n)%nat -> P (S j) + D j = P j + I j) ->
  P n + sumf n D = P 0%nat + sumf n I.
Proof.
  induction n as [|n IH]; intros H; simpl.
  - ring.
  - transitivity ((P (S n) + D n) + sumf n D); [ring|].
    rewrite H by lia.
    transitivity ((P n + sumf n D) + I n); [ring|].
    rewrite IH by (intros; apply H; lia). ring.
Qed.

Lemma ccmpp_population_0 bp sxs fxs gxs srbs asp idx r :
  ccmpp bp sxs fxs gxs srbs asp idx = Some r -> col (population r) 0 = bp.
Proof.
  intros H. unfold ccmpp in H.
  rewrite (run_steps_population_frame _ 0 _ r H 0) by lia.
  unfold make_projection. cbn [population].
  apply col_set_col_same. unfold zeros. rewrite repeat_length. lia.
Qed.

Lemma ccmpp_balance_run bp sxs fxs gxs srbs asp idx :
  ccmpp_input_ok bp sxs fxs gxs idx -> (2 <= length bp)%nat ->
  (forall k, (k < length sxs)%nat -> Qcopp 1 < at_ srbs k) ->
  (forall k a, (k < length sxs)%nat -> (a < length bp)%nat -> at_ (col gxs k) a = 0) ->
  exists r, ccmpp bp sxs fxs gxs srbs asp idx = Some r /\
    vsum (col (population r) (length sxs)) +
      sumf (length sxs) (fun k => vsum (col (deaths r) k)) =
    vsum bp + sumf (length sxs) (at_ (infants r)).
Proof.
  intros Hok H2 Hsrb Hg.
  pose (st0 := make_projection (length bp) (length sxs) (rows fxs) idx asp
                 bp sxs fxs gxs srbs).
  destruct (run_steps_defined (length sxs) 0 st0) as [r Hr].
  { intros j Hj. apply srb_gt_minus_one, Hsrb. simpl in Hj. lia. }
  exists r. split; [exact Hr|].
  rewrite <- (ccmpp_population_0 bp sxs fxs gxs srbs asp idx r Hr).
  apply (sumf_telescope (length sxs) (fun j => vsum (col (population r) j))).
  intros k Hk.
  pose (Q := fun (j : nat) (p0 : vec) (o : vec * vec * vec * Qc * vec) =>
          let '(p, d, b, inf, m) := o in vsum p + vsum d = vsum p0 + inf).
  assert (HQ : forall st j st', proj_wf st -> params st = params st0 ->
                 (j < n_steps st0)%nat -> step_projection st j = Some st' ->
                 Q j (col (population st') j) (outputs_at st' j)).
  { intros st j st' Hwf Hpar Hj Hs.
    assert (Hns : n_steps st = n_steps st0) by (unfold params in Hpar; congruence).
    assert (Ena : n_ages st = length bp) by (unfold params in Hpar; simpl in Hpar; congruence).
    assert (Eg : gx st = gxs) by (unfold params in Hpar; simpl in Hpar; congruence).
    pose proof (step_wf_of_proj_wf st j Hwf ltac:(lia)) as W.
    apply step_projection_some in Hs as (inf & _ & _ & ->).
    unfold Q, outputs_at.
    rewrite (store_population_next st j inf W), (store_deaths st j inf W),
      (store_infants st j inf W), (store_population_other st j inf j) by lia.
    apply step_balance; [exact W | lia |].
    intros a Ha. rewrite Eg. apply Hg; [simpl in Hj; lia | lia]. }
  exact (run_steps_outputs_prop2 Q st0 HQ (length sxs) 0 st0 r
           (proj_wf_make bp sxs fxs gxs srbs asp idx Hok) eq_refl
           (le_n _) Hr k ltac:(simpl; lia)).
Qed.

(** Balance over a whole run.  With consistent shapes, at least two age
    groups, every [srb] entry [> -1] and no migration ([gx] zero), the run
    succeeds and the final population total plus all deaths equals the
    base population total plus all infants. *)
Theorem ccmpp_closed_balance basepop sx fx gx srb age_span fx_idx :
  ccmpp_input_ok basepop sx fx gx fx_idx -> (2 <= length basepop)%nat ->
  (forall k, (k < length sx)%nat -> Qcopp 1 < at_ srb k) ->
  (forall k a, (k < length sx)%nat -> (a < length basepop)%nat -> at_ (col gx k) a = 0) ->
  exists r, ccmpp basepop sx fx gx srb age_span fx_idx = Some r /\
    vsum (col (population r) (length sx)) +
      sumf (length sx) (fun k => vsum (col (deaths r) k)) =
    vsum basepop + sumf (length sx) (at_ (infants r)).
Proof. exact (ccmpp_balance_run basepop sx fx gx srb age_span fx_idx). Qed.



(** * When the drivers fail *)






(** * The sparse product *)

Lemma sumf_plus n f g : sumf n (fun i => f i + g i) = sumf n f + sumf n g.
Proof. induction n as [|n IH]; simpl; [ring | rewrite IH; ring]. Qed.

Lemma sumf_scale n c f : sumf n (fun i => c * f i) = c * sumf n f.
Proof. induction n as [|n IH]; simpl; [ring | rewrite IH; ring]. Qed.

Lemma sumf_indicator n c (g : nat -> Qc) :
  (c < n)%nat -> sumf n (fun j => if Nat.eqb c j then g j else 0) = g c.
Proof.
  induction n as [|n IH]; intros Hc; [lia|]. simpl.
  destruct (Nat.eqb_spec c n) as [->|Hne].
  - rewrite sumf_zero; [ring|].
    intros j Hj. destruct (Nat.eqb_spec n j); [lia | reflexivity].
  - rewrite IH by lia. ring.
Qed.

(** A window [a .. a+len-1] of a sum over [0 .. n-1]. *)
Lemma sumf_window n a len (g : nat -> Qc) :
  (a + len <= n)%nat ->
  sumf n (fun j => if andb (a <=? j)%nat (j <? a + len)%nat then g (j - a)%nat else 0) =
  sumf len g.
Proof.
  induction len as [|len IH]; intros H.
  - apply sumf_zero. intros j Hj.
    destruct (Nat.leb_spec a j), (Nat.ltb_spec j (a + 0)); try lia; reflexivity.
  - rewrite (sumf_ext n _ (fun j =>
             (if andb (a <=? j)%nat (j <? a + len)%nat then g (j - a)%nat else 0) +
             (if Nat.eqb (a + len) j then g (j - a)%nat else 0))).
    + rewrite sumf_plus, IH, sumf_indicator by lia. simpl.
      replace (a + len - a)%nat with len by lia. reflexivity.
    + intros j Hj.
      destruct (Nat.leb_spec a j), (Nat.ltb_spec j (a + S len)),
        (Nat.ltb_spec j (a + len)), (Nat.eqb_spec (a + len) j); simpl; try lia; ring.
Qed.

Lemma at_map_seq (f : nat -> Qc) n i : (i < n)%nat -> at_ (map f (seq 0 n)) i = f i.
Proof.
  intros H. unfold at_.
  rewrite (nth_indep _ _ (f 0%nat)) by (rewrite length_map, length_seq; exact H).
  rewrite map_nth, seq_nth by exact H. reflexivity.
Qed.

Lemma length_spmv M v : length (spmv M v) = sp_rows M.
Proof. unfold spmv. rewrite length_map, length_seq. reflexivity. Qed.

(** Row [i] of a sparse product is the sum over the columns of
    [coeff M i j * v[j]], when every inserted column is below [m]. *)
Lemma at_spmv M v i m :
  (i < sp_rows M)%nat ->
  (forall r c x, In (r, c, x) (sp_entries M) -> (c < m)%nat) ->
  at_ (spmv M v) i = sumf m (fun j => coeff M i j * at_ v j).
Proof.
  intros Hi Hc. unfold spmv. rewrite at_map_seq by exact Hi.
  unfold coeff. induction (sp_entries M) as [|[[r c] x] es IH]; simpl.
  - symmetry. apply sumf_zero. intros; ring.
  - rewrite (sumf_ext m _ (fun j => entry_sum es i j * at_ v j +
                              (if Nat.eqb c j then (if Nat.eqb r i then x else 0) * at_ v j
                               else 0))).
    + rewrite sumf_plus, sumf_indicator by (eapply Hc; left; reflexivity).
      rewrite IH by (intros r' c' x' Hin; eapply Hc; right; exact Hin).
      destruct (Nat.eqb r i); ring.
    + intros j Hj. destruct (Nat.eqb r i), (Nat.eqb c j); simpl; ring.
Qed.

Lemma leslie_entries_bounds sx fx fx_idx fk n r c x :
  length sx = S n -> (1 <= fx_idx)%nat -> (fx_idx + length fx <= n)%nat ->
  In (r, c, x) (leslie_entries sx fx fx_idx fk) -> (r < n)%nat /\ (c < n)%nat.
Proof.
  intros Hsx H1 Hwin Hin. unfold leslie_entries in Hin. rewrite Hsx in Hin.
  replace (S n - 1)%nat with n in Hin by lia.
  apply in_app_iff in Hin as [Hin|Hin]; [|apply in_app_iff in Hin as [Hin|Hin]].
  - apply in_map_iff in Hin as (t & E & Ht). apply in_seq in Ht. inversion E; lia.
  - apply in_map_iff in Hin as (t & E & Ht). apply in_seq in Ht. inversion E; lia.
  - destruct Hin as [E|[]]. inversion E; lia.
Qed.

Lemma leslie_spmv_rows sx fx srb age_span fx_idx n_ages n_fx L v :
  length sx = S n_ages -> length fx = n_fx ->
  (1 <= fx_idx)%nat -> (fx_idx + n_fx <= n_ages)%nat -> (2 <= n_ages)%nat ->
  make_leslie_matrix sx fx srb age_span fx_idx = Some L ->
  let fert_k := at_ sx 0 * half * age_span / (1 + srb) in
  length (spmv L v) = n_ages /\
  at_ (spmv L v) 0 =
    sumf (S n_fx) (fun t =>
      fert_k * ((if (t <? n_fx)%nat then at_ fx t * at_ sx (fx_idx + t) else 0) +
                (if (0 <? t)%nat then at_ fx (t - 1) else 0)) *
      at_ v (fx_idx - 1 + t)) /\
  (forall i, (1 <= i < n_ages)%nat ->
     at_ (spmv L v) i =
     at_ sx i * at_ v (i - 1) +
     (if Nat.eqb i (n_ages - 1) then at_ sx n_ages * at_ v (n_ages - 1) else 0)).
Proof.
  intros Hsx Hfx H1 Hwin H2 HL fert_k.
  assert (Hden : 1 + srb <> 0).
  { intros E. apply (make_leslie_matrix_fails sx fx srb age_span fx_idx) in E. congruence. }
  rewrite make_leslie_matrix_unfold in HL by exact Hden. injection HL as <-.
  assert (Hb : forall r c x, In (r, c, x)
                 (sp_entries (mkSp (length sx - 1) (length sx - 1)
                    (leslie_entries sx fx fx_idx (fert_k_of sx srb age_span)))) ->
                 (c < n_ages)%nat).
  { intros r c x Hin.
    refine (proj2 (leslie_entries_bounds sx fx fx_idx _ n_ages r c x Hsx H1 _ Hin)).
    lia. }
  split; [rewrite length_spmv; cbn [sp_rows]; lia|]. split.
  - rewrite (at_spmv _ v 0 n_ages) by (cbn [sp_rows]; lia || exact Hb).
    unfold coeff. cbn [sp_entries].
    set (g := fun t => fert_k *
                ((if (t <? n_fx)%nat then at_ fx t * at_ sx (fx_idx + t) else 0) +
                 (if (0 <? t)%nat then at_ fx (t - 1) else 0)) *
                at_ v (fx_idx - 1 + t)).
    rewrite (sumf_ext n_ages _
               (fun j => if andb (fx_idx - 1 <=? j)%nat (j <? fx_idx - 1 + S n_fx)%nat
                         then g (j - (fx_idx - 1))%nat else 0)).
    + apply sumf_window. lia.
    + intros j Hj. rewrite entry_sum_leslie by exact H1. rewrite Hsx, Hfx.
      replace (S n_ages - 1)%nat with n_ages by lia.
      destruct (Nat.eqb_spec (n_ages - 1) 0); [lia|]. cbn [Nat.eqb Nat.leb andb].
      destruct (Nat.leb_spec (fx_idx + 0 - 1) j), (Nat.ltb_spec j (fx_idx + 0 + S n_fx - 1)),
        (Nat.leb_spec (fx_idx - 1) j), (Nat.ltb_spec j (fx_idx - 1 + S n_fx));
        try lia; cbn [andb]; try ring.
      rewrite at_fert_leslie_of by lia. rewrite Hfx. unfold g.
      replace (j + 1 - fx_idx)%nat with (j - (fx_idx - 1))%nat by lia.
      replace (fx_idx - 1 + (j - (fx_idx - 1)))%nat with j by lia.
      unfold fert_k, fert_k_of. ring.
  - intros i Hi.
    rewrite (at_spmv _ v i n_ages) by (cbn [sp_rows]; lia || exact Hb).
    unfold coeff. cbn [sp_entries].
    rewrite (sumf_ext n_ages _
               (fun j => (if Nat.eqb (i - 1) j then at_ sx i * at_ v j else 0) +
                         (if Nat.eqb i (n_ages - 1)
                          then (if Nat.eqb (n_ages - 1) j then at_ sx n_ages * at_ v j else 0)
                          else 0))).
    + rewrite sumf_plus, sumf_indicator by lia.
      destruct (Nat.eqb_spec i (n_ages - 1)).
      * rewrite sumf_indicator by lia. reflexivity.
      * rewrite sumf_zero by reflexivity. ring.
    + intros j Hj. rewrite entry_sum_leslie by exact H1. rewrite Hsx, Hfx.
      replace (S n_ages - 1)%nat with n_ages by lia.
      destruct (Nat.eqb_spec i 0); [lia|]. cbn [andb].
      destruct (Nat.leb_spec 1 i), (Nat.ltb_spec i (1 + (n_ages - 1))); try lia.
      destruct (Nat.eqb_spec j (i - 1)), (Nat.eqb_spec (i - 1) j); try lia;
      destruct (Nat.eqb_spec (n_ages - 1) i), (Nat.eqb_spec i (n_ages - 1)); try lia;
      destruct (Nat.eqb_spec (n_ages - 1) j); cbn [andb]; try (subst; ring); ring.
Qed.

(** The Leslie matrix applied to a vector [v] (the product of line 60):
    row 0 sums the fertility row [fert_leslie[t] * v[fx_idx - 1 + t]] over
    [t = 0..n_fx]; row [i = 1..n_ages-1] is [sx[i] * v[i-1]], plus
    [sx[n_ages] * v[n_ages-1]] in the last row. *)
Theorem leslie_product sx fx srb age_span fx_idx n_ages n_fx L v :
  length sx = S n_ages -> length fx = n_fx ->
  (1 <= fx_idx)%nat -> (fx_idx + n_fx <= n_ages)%nat -> (2 <= n_ages)%nat ->
  make_leslie_matrix sx fx srb age_span fx_idx = Some L ->
  let fert_k := at_ sx 0 * half * age_span / (1 + srb) in
  length (spmv L v) = n_ages /\
  at_ (spmv L v) 0 =
    sumf (S n_fx) (fun t =>
      fert_k * ((if (t <? n_fx)%nat then at_ fx t * at_ sx (fx_idx + t) else 0) +
                (if (0 <? t)%nat then at_ fx (t - 1) else 0)) *
      at_ v (fx_idx - 1 + t)) /\
  (forall i, (1 <= i < n_ages)%nat ->
     at_ (spmv L v) i =
     at_ sx i * at_ v (i - 1) +
     (if Nat.eqb i (n_ages - 1) then at_ sx n_ages * at_ v (n_ages - 1) else 0)).
Proof. exact (leslie_spmv_rows sx fx srb age_span fx_idx n_ages n_fx L v). Qed.

(** * The two drivers on one step *)

(** One iteration of [ccmpp_leslie] (lines 53-61) computes the column
    that [step_projection] writes, when the step's [sx] column has exactly
    [n_ages + 1] entries and the fertile window ends below the open age
    group. *)
Lemma leslie_step_agrees st k inf L :
  step_wf st k -> (1 <= fx_idx st)%nat -> (fx_idx st + n_fx st < n_ages st)%nat ->
  length (col (sx st) k) = S (n_ages st) ->
  make_leslie_matrix (col (sx st) k) (col (fx st) k) (at_ (srb st) k)
                     (age_span st) (fx_idx st) = Some L ->
  inf = vsum (births_at st k) / (1 + at_ (srb st) k) ->
  vadd (spmv L (vadd (col (population st) k)
                     (vscale half (vmul (col (population st) k) (col (gx st) k)))))
       (vscale half (vmul (col (population st) k) (col (gx st) k)))
  = pop_next_at st k inf.
Proof.
  intros Hwf H1 Hlt Hsxl HL Hinf.
  assert (Hden : 1 + at_ (srb st) k <> 0).
  { intros E. apply (make_leslie_matrix_fails (col (sx st) k) (col (fx st) k)
                       (at_ (srb st) k) (age_span st) (fx_idx st)) in E. congruence. }
  pose proof Hwf as W. unpack_wf W.
  set (mg := vmul (col (population st) k) (col (gx st) k)).
  set (w' := vadd (col (population st) k) (vscale half mg)).
  assert (Hmgl : length mg = n_ages st) by (unfold mg; rewrite length_vmul; lia).
  assert (Hmg : forall a, (a < n_ages st)%nat -> at_ mg a = at_ (mig_at st k) a).
  { intros a Ha. unfold mg. rewrite at_vmul by lia.
    rewrite (at_mig_at st k Hwf) by exact Ha. reflexivity. }
  assert (Hw' : forall a, (a < n_ages st)%nat -> at_ w' a = at_ (work_at st k) a).
  { intros a Ha. unfold w'. rewrite at_vadd by (rewrite ?length_vscale; lia).
    rewrite at_vscale by lia. rewrite (at_work_at st k Hwf) by exact Ha.
    rewrite Hmg by exact Ha. reflexivity. }
  pose proof (leslie_spmv_rows (col (sx st) k) (col (fx st) k) (at_ (srb st) k)
                (age_span st) (fx_idx st) (n_ages st) (n_fx st) L w'
                Hsxl Hfx H1 ltac:(lia) ltac:(lia) HL) as HH.
  cbv zeta in HH. destruct HH as (Hlen & H0 & HS).
  apply nth_ext with (d := 0) (d' := 0).
  { rewrite length_vadd, Hlen, length_vscale, Hmgl, (length_pop_next_at st k Hwf). lia. }
  rewrite length_vadd, Hlen, length_vscale, Hmgl, Nat.min_id. intros a Ha.
  change (at_ (vadd (spmv L w') (vscale half mg)) a = at_ (pop_next_at st k inf) a).
  rewrite at_vadd by (rewrite ?Hlen, ?length_vscale; lia).
  rewrite at_vscale by lia. rewrite Hmg by lia.
  destruct a as [|i].
  - rewrite H0, (at_pop_next_at_0 st k Hwf).
    set (N := n_fx st). set (s := col (sx st) k). set (f := col (fx st) k).
    set (Wk := at_ (work_at st k)).
    set (X := sumf N (fun t => at_ f t * (at_ s (fx_idx st + t) * Wk (fx_idx st + t - 1)%nat
                                          + Wk (fx_idx st + t)%nat))).
    assert (Eb : vsum (births_at st k) = half * age_span st * X).
    { rewrite vsum_sumf, (length_births_at st k Hwf). unfold X.
      rewrite <- sumf_scale. apply sumf_ext. intros t Ht.
      rewrite (at_births_at st k Hwf) by exact Ht.
      replace (fx_idx st + t)%nat with (S (fx_idx st + t - 1)) by lia.
      rewrite (at_aged_at_survival st k Hwf) by lia.
      destruct (Nat.eqb_spec (S (fx_idx st + t - 1)) (n_ages st - 1)); [lia|].
      replace (S (fx_idx st + t - 1) - 1)%nat with (fx_idx st + t - 1)%nat by lia.
      unfold Wk, f, s. ring. }
    set (fk := at_ s 0 * half * age_span st / (1 + at_ (srb st) k)).
    assert (El : sumf (S N) (fun t =>
               fk * ((if (t <? N)%nat then at_ f t * at_ s (fx_idx st + t) else 0) +
                     (if (0 <? t)%nat then at_ f (t - 1) else 0)) *
               at_ w' (fx_idx st - 1 + t)) = fk * X).
    { rewrite (sumf_ext (S N) _ (fun t =>
               fk * (if (t <? N)%nat then at_ f t * at_ s (fx_idx st + t) else 0) *
                 at_ w' (fx_idx st - 1 + t) +
               fk * (if (0 <? t)%nat then at_ f (t - 1) else 0) *
                 at_ w' (fx_idx st - 1 + t))) by (intros; ring).
      rewrite sumf_plus.
      rewrite (sumf_shift N (fun t =>
               fk * (if (0 <? t)%nat then at_ f (t - 1) else 0) *
                 at_ w' (fx_idx st - 1 + t))).
      cbn [sumf]. rewrite !Nat.ltb_irrefl.
      unfold X. rewrite <- sumf_scale.
      transitivity (sumf N (fun t =>
               fk * (if (t <? N)%nat then at_ f t * at_ s (fx_idx st + t) else 0) *
                 at_ w' (fx_idx st - 1 + t) +
               fk * (if (0 <? S t)%nat then at_ f (S t - 1) else 0) *
                 at_ w' (fx_idx st - 1 + S t))).
      { rewrite sumf_plus. ring. }
      apply sumf_ext. intros t Ht.
      destruct (Nat.ltb_spec t N); [|lia].
      replace ((0 <? S t)%nat) with true by reflexivity.
      replace (S t - 1)%nat with t by lia.
      replace (fx_idx st - 1 + S t)%nat with (fx_idx st + t)%nat by lia.
      replace (fx_idx st - 1 + t)%nat with (fx_idx st + t - 1)%nat by lia.
      rewrite !Hw' by lia. unfold Wk. ring. }
    rewrite El, Hinf, Eb. unfold fk, s.
    field. exact Hden.
  - rewrite HS by lia. rewrite (at_pop_next_at_S st k Hwf) by lia.
    rewrite (at_aged_at_survival st k Hwf) by lia.
    replace (S i - 1)%nat with i by lia. rewrite !Hw' by lia.
    destruct (Nat.eqb _ _); ring.
Qed.

Lemma drivers_agree_run fuel : forall k st pl r,
  proj_wf st -> (k + fuel <= n_steps st)%nat ->
  (1 <= fx_idx st)%nat -> (fx_idx st + n_fx st < n_ages st)%nat ->
  (forall j, (k <= j < k + fuel)%nat -> length (col (sx st) j) = S (n_ages st)) ->
  length pl = S k -> (forall j, (j <= k)%nat -> col pl j = col (population st) j) ->
  run_steps k fuel st = Some r ->
  exists m, leslie_steps (sx st) (fx st) (gx st) (srb st) (age_span st) (fx_idx st)
              k fuel pl = Some m /\
            length m = S (k + fuel) /\
            forall j, (j <= k + fuel)%nat -> col m j = col (population r) j.
Proof.
  induction fuel as [|fuel IH]; intros k st pl r Hwf Hk H1 Hlt Hsxl Hpl Hcol Hrun;
    cbn [run_steps] in Hrun.
  - injection Hrun as <-. exists pl. split; [reflexivity|].
    split; [lia|]. intros j Hj. apply Hcol. lia.
  - unfold bind in Hrun. destruct (step_projection st k) as [st'|] eqn:E; [|discriminate].
    pose proof (step_wf_of_proj_wf st k Hwf ltac:(lia)) as W.
    apply step_projection_some in E as (inf & Hden & Hinf & ->).
    cbn [leslie_steps]. unfold bind.
    set (L := mkSp (length (col (sx st) k) - 1) (length (col (sx st) k) - 1)
                (leslie_entries (col (sx st) k) (col (fx st) k) (fx_idx st)
                   (fert_k_of (col (sx st) k) (at_ (srb st) k) (age_span st)))).
    assert (HL : make_leslie_matrix (col (sx st) k) (col (fx st) k) (at_ (srb st) k)
                   (age_span st) (fx_idx st) = Some L)
      by (apply make_leslie_matrix_unfold; exact Hden).
    rewrite HL, (Hcol k) by lia.
    rewrite (leslie_step_agrees st k inf L W H1 Hlt) by (auto; apply Hsxl; lia).
    destruct (IH (S k) (store_step st k inf) (pl ++ [pop_next_at st k inf]) r)
      as (m & Hm & Hlm & Hcm); [| | | | | | | exact Hrun |].
    + apply proj_wf_store; [exact Hwf | lia].
    + cbn [store_step n_steps]. lia.
    + exact H1.
    + exact Hlt.
    + intros j Hj. apply Hsxl. lia.
    + rewrite length_app, Hpl. simpl. lia.
    + intros j Hj. unfold col at 1.
      destruct (Nat.eq_dec j (S k)) as [->|Hne].
      * rewrite app_nth2 by lia. rewrite Hpl, Nat.sub_diag.
        symmetry. exact (store_population_next st k inf W).
      * rewrite app_nth1 by lia. rewrite (store_population_other st k inf j Hne).
        apply Hcol. lia.
    + exists m. split; [exact Hm|].
      replace (k + S fuel)%nat with (S k + fuel)%nat by lia. auto.
Qed.

Lemma drivers_agree_inputs bp sxs fxs gxs srbs asp idx :
  ccmpp_input_ok bp sxs fxs gxs idx ->
  (1 <= idx)%nat -> (idx + rows fxs < length bp)%nat ->
  (forall k, (k < length sxs)%nat -> length (col sxs k) = S (length bp)) ->
  (forall k, (k < length sxs)%nat -> at_ srbs k <> Qcopp 1) ->
  exists r m, ccmpp bp sxs fxs gxs srbs asp idx = Some r /\
    ccmpp_leslie bp sxs fxs gxs srbs asp idx = Some m /\
    length m = S (length sxs) /\
    forall k, (k <= length sxs)%nat -> col m k = col (population r) k.
Proof.
  intros Hok H1 Hlt Hsxl Hsrb.
  pose (st0 := make_projection (length bp) (length sxs) (rows fxs) idx asp
                 bp sxs fxs gxs srbs).
  destruct (run_steps_defined (length sxs) 0 st0) as [r Hr].
  { intros j Hj. apply srb_denominator, Hsrb. simpl in Hj. lia. }
  destruct (drivers_agree_run (length sxs) 0 st0 [bp] r
              (proj_wf_make bp sxs fxs gxs srbs asp idx Hok) (le_n _) H1 Hlt)
    as (m & Hm & Hlm & Hcm).
  - intros j Hj. apply Hsxl. simpl in Hj. lia.
  - reflexivity.
  - intros j Hj. replace j with 0%nat by lia. unfold st0, make_projection.
    cbn [population]. rewrite col_set_col_same; [reflexivity|].
    unfold zeros. rewrite repeat_length. lia.
  - exact Hr.
  - exists r, m. split; [exact Hr|]. split; [exact Hm|]. split; [exact Hlm|].
    exact Hcm.
Qed.

(** Agreement of the two drivers.  When every [sx] column has exactly
    [n_ages + 1] entries, the fertile window [fx_idx .. fx_idx + n_fx - 1]
    starts at age 1 or later and ends below the open age group
    [n_ages - 1], and no [srb] entry is [-1], both [ccmpp] and
    [ccmpp_leslie] succeed and the matrix the Leslie driver returns has
    the same [n_steps + 1] population columns as the container of
    [ccmpp]. *)
Theorem drivers_agree basepop sx fx gx srb age_span fx_idx :
  ccmpp_input_ok basepop sx fx gx fx_idx ->
  (1 <= fx_idx)%nat -> (fx_idx + rows fx < length basepop)%nat ->
  (forall k, (k < length sx)%nat -> length (col sx k) = S (length basepop)) ->
  (forall k, (k < length sx)%nat -> at_ srb k <> Qcopp 1) ->
  exists r m, ccmpp basepop sx fx gx srb age_span fx_idx = Some r /\
    ccmpp_leslie basepop sx fx gx srb age_span fx_idx = Some m /\
    length m = S (length sx) /\
    forall k, (k <= length sx)%nat -> col m k = col (population r) k.
Proof. exact (drivers_agree_inputs basepop sx fx gx srb age_span fx_idx). Qed.

(** * Shape of the result of [ccmpp_leslie] *)




(** * Signs over a whole run of [ccmpp] *)

Lemma run_population_nonneg st0 fuel : forall k st r,
  proj_wf st -> params st = params st0 -> (k + fuel <= n_steps st0)%nat ->
  (forall j, (k <= j < k + fuel)%nat ->
     (forall a, (a <= n_ages st0)%nat -> 0 <= at_ (col (sx st0) j) a) /\
     (forall t, (t < n_fx st0)%nat -> 0 <= at_ (col (fx st0) j) t) /\
     (forall a, (a < n_ages st0)%nat -> 0 <= at_ (col (gx st0) j) a) /\
     Qcopp 1 < at_ (srb st0) j) ->
  0 <= age_span st0 ->
  (forall a, (a < n_ages st0)%nat -> 0 <= at_ (col (population st) k) a) ->
  run_steps k fuel st = Some r ->
  forall j, (k <= j <= k + fuel)%nat ->
  forall a, (a < n_ages st0)%nat -> 0 <= at_ (col (population r) j) a.
Proof.
  induction fuel as [|fuel IH];
    intros k st r Hwf Hpar Hk Hin Has Hp0 Hrun j Hj a Ha; cbn [run_steps] in Hrun.
  - injection Hrun as <-. replace j with k by lia. auto.
  - unfold bind in Hrun. destruct (step_projection st k) as [st'|] eqn:E; [|discriminate].
    pose proof Hpar as HP. unfold params in HP.
    injection HP as E1 E2 E3 E4 E5 E6 E7 E8 E9.
    pose proof (step_wf_of_proj_wf st k Hwf ltac:(lia)) as W.
    pose proof E as E'. apply step_projection_some in E' as (inf & _ & _ & Est').
    destruct (Nat.eq_dec j k) as [->|Hjk].
    + rewrite (run_steps_population_frame fuel (S k) st' r Hrun k) by lia.
      rewrite Est', (store_population_other st k inf k) by lia. auto.
    + destruct (Hin k) as (Hs & Hf & Hg & Hr); [lia|].
      rewrite <- E1, <- E3, <- E6, <- E7, <- E8, <- E9 in *. rewrite <- E5 in Has.
      destruct (step_nonneg_core st k st' W Hp0 Hs Hf Hg Has Hr E) as (Hnext & _).
      apply (IH (S k) st' r); auto.
      * rewrite Est'. apply proj_wf_store; [exact Hwf | lia].
      * rewrite Est'. exact Hpar.
      * lia.
      * intros j' Hj'. apply Hin. lia.
      * rewrite <- E5. exact Has.
      * lia.
Qed.

Lemma ccmpp_nonneg_inputs bp sxs fxs gxs srbs asp idx :
  ccmpp_input_ok bp sxs fxs gxs idx ->
  (forall a, (a < length bp)%nat -> 0 <= at_ bp a) ->
  (forall k, (k < length sxs)%nat ->
     (forall a, (a <= length bp)%nat -> 0 <= at_ (col sxs k) a) /\
     (forall t, (t < rows fxs)%nat -> 0 <= at_ (col fxs k) t) /\
     (forall a, (a < length bp)%nat -> 0 <= at_ (col gxs k) a) /\
     Qcopp 1 < at_ srbs k) ->
  0 <= asp ->
  exists r, ccmpp bp sxs fxs gxs srbs asp idx = Some r /\
    (forall k, (k <= length sxs)%nat ->
       forall a, (a < length bp)%nat -> 0 <= at_ (col (population r) k) a) /\
    (forall k, (k < length sxs)%nat ->
       0 <= at_ (infants r) k /\
       (forall t, (t < rows fxs)%nat -> 0 <= at_ (col (births r) k) t) /\
       (forall a, (a < length bp)%nat -> 0 <= at_ (col (migrations r) k) a) /\
       ((forall a, (a <= length bp)%nat -> at_ (col sxs k) a <= 1) ->
        forall a, (a <= length bp)%nat -> 0 <= at_ (col (deaths r) k) a)).
Proof.
  intros Hok Hbp Hin Has.
  pose (st0 := make_projection (length bp) (length sxs) (rows fxs) idx asp
                 bp sxs fxs gxs srbs).
  destruct (run_steps_defined (length sxs) 0 st0) as [r Hr].
  { intros j Hj. apply srb_gt_minus_one. simpl in Hj. apply Hin. lia. }
  assert (Hwf0 := proj_wf_make bp sxs fxs gxs srbs asp idx Hok).
  assert (Hpop : forall k, (k <= length sxs)%nat ->
            forall a, (a < length bp)%nat -> 0 <= at_ (col (population r) k) a).
  { intros k Hk a Ha.
    apply (run_population_nonneg st0 (length sxs) 0 st0 r Hwf0 eq_refl (le_n _))
      with (j := k); auto; [| lia].
    intros j Hj. apply Hin. simpl in Hj. lia. }
  exists r. split; [exact Hr|]. split; [exact Hpop|].
  intros k Hk.
  pose (Q := fun (j : nat) (p0 : vec) (o : vec * vec * vec * Qc * vec) =>
          let '(p, d, b, inf, m) := o in
          (forall a, (a < length bp)%nat -> 0 <= at_ p0 a) ->
          0 <= inf /\
          (forall t, (t < rows fxs)%nat -> 0 <= at_ b t) /\
          (forall a, (a < length bp)%nat -> 0 <= at_ m a) /\
          ((forall a, (a <= length bp)%nat -> at_ (col sxs j) a <= 1) ->
           forall a, (a <= length bp)%nat -> 0 <= at_ d a)).
  assert (HQ : forall st j st', proj_wf st -> params st = params st0 ->
                 (j < n_steps st0)%nat -> step_projection st j = Some st' ->
                 Q j (col (population st') j) (outputs_at st' j)).
  { intros st j st' Hwf Hpar Hj Hs.
    unfold params in Hpar. injection Hpar as E1 E2 E3 E4 E5 E6 E7 E8 E9.
    cbn in E1, E3, E5, E6, E7, E8, E9, Hj.
    pose proof (step_wf_of_proj_wf st j Hwf ltac:(lia)) as W.
    pose proof Hs as E'. apply step_projection_some in E' as (inf & _ & _ & Est').
    unfold Q, outputs_at. intros Hp.
    rewrite Est', (store_population_other st j inf j) in Hp by lia.
    destruct (Hin j) as (Hs0 & Hf0 & Hg0 & Hr0); [lia|].
    rewrite <- E1, <- E3, <- E5, <- E6, <- E7, <- E8, <- E9 in *.
    destruct (step_nonneg_core st j st' W Hp Hs0 Hf0 Hg0 Has Hr0 Hs)
      as (_ & Hb & Hi & Hm & Hd).
    auto. }
  exact (run_steps_outputs_prop2 Q st0 HQ (length sxs) 0 st0 r Hwf0 eq_refl
           (le_n _) Hr k ltac:(simpl; lia) (Hpop k ltac:(lia))).
Qed.

(** Signs over a run: when [basepop], every step's [sx], [fx] and [gx]
    column and [age_span] are non-negative and every [srb] entry is
    above [-1], [ccmpp] succeeds, every population column it projects is
    non-negative, and so are each step's infants, births and migrations;
    a step's deaths are non-negative when moreover its [sx] entries are
    at most 1. *)
Theorem ccmpp_nonneg basepop sx fx gx srb age_span fx_idx :
  ccmpp_input_ok basepop sx fx gx fx_idx ->
  (forall a, (a < length basepop)%nat -> 0 <= at_ basepop a) ->
  (forall k, (k < length sx)%nat ->
     (forall a, (a <= length basepop)%nat -> 0 <= at_ (col sx k) a) /\
     (forall t, (t < rows fx)%nat -> 0 <= at_ (col fx k) t) /\
     (forall a, (a < length basepop)%nat -> 0 <= at_ (col gx k) a) /\
     Qcopp 1 < at_ srb k) ->
  0 <= age_span ->
  exists r, ccmpp basepop sx fx gx srb age_span fx_idx = Some r /\
    (forall k, (k <= length sx)%nat ->
       forall a, (a < length basepop)%nat -> 0 <= at_ (col (population r) k) a) /\
    (forall k, (k < length sx)%nat ->
       0 <= at_ (infants r) k /\
       (forall t, (t < rows fx)%nat -> 0 <= at_ (col (births r) k) t) /\
       (forall a, (a < length basepop)%nat -> 0 <= at_ (col (migrations r) k) a) /\
       ((forall a, (a <= length basepop)%nat -> at_ (col sx k) a <= 1) ->
        forall a, (a <= length basepop)%nat -> 0 <= at_ (col (deaths r) k) a)).
Proof. exact (ccmpp_nonneg_inputs basepop sx fx gx srb age_span fx_idx). Qed.

(** * Instances of the further properties on concrete inputs *)

Ltac ex_input_ok :=
  unfold ccmpp_input_ok; vm_compute; split; [lia|]; split; [lia|];
  intros k Hk; destruct k as [|k]; [repeat split; lia | lia].

Ltac qc_sign :=
  first [ apply Qcle_alt; vm_compute; discriminate
        | apply Qclt_alt; vm_compute; reflexivity ].

Lemma step_survival_form_witness :
  exists st', step_projection ex_projection 0 = Some st' /\
  let n := n_ages ex_projection in
  let p := col (population ex_projection) 0 in
  let s := col (sx ex_projection) 0 in
  let m a := at_ p a * at_ (col (gx ex_projection) 0) a in
  let w a := at_ p a + half * m a in
  (forall a, (a < n)%nat -> at_ (col (migrations st') 0) a = m a) /\
  (forall a, (1 <= a <= n)%nat ->
     at_ (col (deaths st') 0) a = w (a - 1)%nat * (1 - at_ s a)) /\
  (forall a, (1 <= a < n)%nat ->
     at_ (col (population st') 1) a =
     w (a - 1)%nat * at_ s a +
     (if Nat.eqb a (n - 1) then w (n - 1)%nat * at_ s n else 0) + half * m a).
Proof.
  eexists. split; [reflexivity|].
  apply (step_survival_form ex_projection 0).
  - ex_step_wf.
  - reflexivity.
Defined.

Lemma step_births_form_witness :
  exists st', step_projection ex_projection 0 = Some st' /\
  let p := col (population ex_projection) 0 in
  let m a := at_ p a * at_ (col (gx ex_projection) 0) a in
  let w a := at_ p a + half * m a in
  forall t, (t < n_fx ex_projection)%nat ->
    at_ (col (births st') 0) t =
    half * age_span ex_projection * at_ (col (fx ex_projection) 0) t *
    (w (fx_idx ex_projection + t)%nat +
     (at_ (col (population st') 1) (fx_idx ex_projection + t) -
      half * m (fx_idx ex_projection + t)%nat)).
Proof.
  eexists. split; [reflexivity|].
  apply (step_births_form ex_projection 0).
  - ex_step_wf.
  - vm_compute. lia.
  - reflexivity.
Defined.

Lemma step_projection_nonneg_witness :
  exists st', step_projection ex_projection 0 = Some st' /\
  (forall a, (a < n_ages ex_projection)%nat -> 0 <= at_ (col (population st') 1) a) /\
  (forall t, (t < n_fx ex_projection)%nat -> 0 <= at_ (col (births st') 0) t) /\
  0 <= at_ (infants st') 0 /\
  (forall a, (a < n_ages ex_projection)%nat -> 0 <= at_ (col (migrations st') 0) a) /\
  ((forall a, (a <= n_ages ex_projection)%nat -> at_ (col (sx ex_projection) 0) a <= 1) ->
   forall a, (a <= n_ages ex_projection)%nat -> 0 <= at_ (col (deaths st') 0) a).
Proof.
  eexists. split; [reflexivity|].
  apply (step_projection_nonneg ex_projection 0).
  - ex_step_wf.
  - intros a Ha. vm_compute in Ha. destruct a as [|[|[|a]]]; [qc_sign..| lia].
  - intros a Ha. vm_compute in Ha. destruct a as [|[|[|[|a]]]]; [qc_sign..| lia].
  - intros t Ht. vm_compute in Ht. destruct t as [|t]; [qc_sign | lia].
  - intros a Ha. vm_compute in Ha. destruct a as [|[|[|a]]]; [qc_sign..| lia].
  - qc_sign.
  - qc_sign.
  - reflexivity.
Defined.

Lemma ccmpp_closed_balance_witness :
  exists r, ccmpp ex_basepop ex_sx ex_fx ex_gx ex_srb 1 1 = Some r /\
    vsum (col (population r) (length ex_sx)) +
      sumf (length ex_sx) (fun k => vsum (col (deaths r) k)) =
    vsum ex_basepop + sumf (length ex_sx) (at_ (infants r)).
Proof.
  apply (ccmpp_closed_balance ex_basepop ex_sx ex_fx ex_gx ex_srb 1 1).
  - ex_input_ok.
  - vm_compute. lia.
  - intros k Hk. destruct k as [|k]; [qc_sign | vm_compute in Hk; lia].
  - intros k a Hk Ha. destruct k as [|k]; [|vm_compute in Hk; lia].
    vm_compute in Ha. destruct a as [|[|[|a]]]; [reflexivity.. | lia].
Defined.


Lemma leslie_product_witness :
  exists L, make_leslie_matrix (col ex_sx 0) (col ex_fx 0) 0 1 1 = Some L /\
  let fert_k := at_ (col ex_sx 0) 0 * half * 1 / (1 + 0) in
  length (spmv L ex_basepop) = 3%nat /\
  at_ (spmv L ex_basepop) 0 =
    sumf 2 (fun t =>
      fert_k * ((if (t <? 1)%nat then at_ (col ex_fx 0) t * at_ (col ex_sx 0) (1 + t) else 0) +
                (if (0 <? t)%nat then at_ (col ex_fx 0) (t - 1) else 0)) *
      at_ ex_basepop (1 - 1 + t)) /\
  (forall i, (1 <= i < 3)%nat ->
     at_ (spmv L ex_basepop) i =
     at_ (col ex_sx 0) i * at_ ex_basepop (i - 1) +
     (if Nat.eqb i (3 - 1) then at_ (col ex_sx 0) 3 * at_ ex_basepop (3 - 1) else 0)).
Proof.
  eexists. split; [reflexivity|].
  apply (leslie_product (col ex_sx 0) (col ex_fx 0) 0 1 1 3 1 _ ex_basepop).
  - reflexivity.
  - reflexivity.
  - lia.
  - lia.
  - lia.
  - reflexivity.
Defined.

Lemma drivers_agree_witness :
  exists r m, ccmpp ex_basepop ex_sx ex_fx ex_gx ex_srb 1 1 = Some r /\
    ccmpp_leslie ex_basepop ex_sx ex_fx ex_gx ex_srb 1 1 = Some m /\
    length m = S (length ex_sx) /\
    forall k, (k <= length ex_sx)%nat -> col m k = col (population r) k.
Proof.
  apply (drivers_agree ex_basepop ex_sx ex_fx ex_gx ex_srb 1 1).
  - ex_input_ok.
  - lia.
  - vm_compute. lia.
  - intros k Hk. destruct k as [|k]; [reflexivity | vm_compute in Hk; lia].
  - intros k Hk. destruct k as [|k]; [vm_compute; discriminate | vm_compute in Hk; lia].
Defined.


Lemma ccmpp_nonneg_witness :
  exists r, ccmpp ex_basepop ex_sx ex_fx ex_gx ex_srb 1 1 = Some r /\
    (forall k, (k <= length ex_sx)%nat ->
       forall a, (a < length ex_basepop)%nat -> 0 <= at_ (col (population r) k) a) /\
    (forall k, (k < length ex_sx)%nat ->
       0 <= at_ (infants r) k /\
       (forall t, (t < rows ex_fx)%nat -> 0 <= at_ (col (births r) k) t) /\
       (forall a, (a < length ex_basepop)%nat -> 0 <= at_ (col (migrations r) k) a) /\
       ((forall a, (a <= length ex_basepop)%nat -> at_ (col ex_sx k) a <= 1) ->
        forall a, (a <= length ex_basepop)%nat -> 0 <= at_ (col (deaths r) k) a)).
Proof.
  apply (ccmpp_nonneg ex_basepop ex_sx ex_fx ex_gx ex_srb 1 1).
  - ex_input_ok.
  - intros a Ha. vm_compute in Ha. destruct a as [|[|[|a]]]; [qc_sign.. | lia].
  - intros k Hk. destruct k as [|k]; [|vm_compute in Hk; lia].
    split; [|split; [|split]].
    + intros a Ha. vm_compute in Ha. destruct a as [|[|[|[|a]]]]; [qc_sign.. | lia].
    + intros t Ht. vm_compute in Ht. destruct t as [|t]; [qc_sign | lia].
    + intros a Ha. vm_compute in Ha. destruct a as [|[|[|a]]]; [qc_sign.. | lia].
    + qc_sign.
  - qc_sign.
Defined.
